(** * jaslang: parser and evaluator core

    A shallow embedding of the Go packages [parse] (the automaton-driven
    syntax parser) and [runtime] (the tree-walking evaluator and two native
    arithmetic operations), together with the properties stated about them.

    Go values are modelled as follows.
    - A call that may end in a run-time panic (index out of range, method call
      on a nil interface) returns a [Go.Run]: [Returns a] or [Panics why].
    - Pointers into the syntax tree under construction are paths from the
      root ([parse.ptr]); the tree itself is the store they point into.
    - [float64] is Rocq's primitive binary64 float. *)

From Stdlib Require Import ZArith Lia.
From Stdlib Require Import Floats.PrimFloat.
From stdpp Require Import base option list strings pretty gmap.

#[local] Set Warnings "-register-all".
Local Open Scope string_scope.
Local Open Scope list_scope.
Local Open Scope stdpp_scope.

(** ** Outcomes of Go calls *)
Module Go.

Inductive Run (A : Type) : Type :=
| Returns (a : A)
| Panics (why : string)
| Stuck.
Arguments Returns {A} a.
Arguments Panics {A} why.
Arguments Stuck {A}.

(** [Stuck] marks a configuration the Go program cannot be in: a pointer that
    does not resolve in the modelled store.  It is shown below never to arise
    from [parse.Parse]. *)

Definition bind {A B} (r : Run A) (k : A -> Run B) : Run B :=
  match r with
  | Returns a => k a
  | Panics why => Panics why
  | Stuck => Stuck
  end.

Definition returned {A} (r : Run A) : bool :=
  match r with Returns _ => true | _ => false end.

Definition index_out_of_range : string := "runtime error: index out of range".
Definition slice_out_of_range : string := "runtime error: slice bounds out of range".
Definition nil_dereference : string :=
  "runtime error: invalid memory address or nil pointer dereference".

End Go.

#[global] Instance run_ret : MRet Go.Run := @Go.Returns.
#[global] Instance run_bind : MBind Go.Run := fun A B k r => Go.bind r k.

(** ** Package lex (the lexeme producer's interface) *)
Module lex.

(** Modelled from the spec: the lexeme kinds of the external tokenizer
    ("identifier, paren-open, paren-close, quoted-string, semicolon, number,
    bool-true, bool-false, whitespace"); package [lex] is not part of the
    sources at hand.  The parser converts a kind with [string(...)], so a
    kind is a string; the names are those of section 4.2. *)
Definition LexemeType : Set := string.

Definition LIdentifier : LexemeType := "identifier".
Definition LParenOpen : LexemeType := "parenOpen".
Definition LParenClose : LexemeType := "parenClose".
Definition LQuoted : LexemeType := "quoted".
Definition LSemiColon : LexemeType := "semicolon".
Definition LNumber : LexemeType := "number".
Definition LBoolTrue : LexemeType := "boolTrue".
Definition LBoolFalse : LexemeType := "boolFalse".
Definition LWhitespace : LexemeType := "whitespace".

Record Lexeme : Set := MakeLexeme
  { Value : string; Type' : LexemeType; Start : Z }.

(** A lexer over a fixed slice of lexemes, as the tests' simple lexer:
    [GetNext] hands out the next lexeme or reports exhaustion. *)
Definition Lexer : Set := list Lexeme.

Definition GetNext (l : Lexer) : option (Lexeme * Lexer) :=
  match l with
  | [] => None
  | x :: rest => Some (x, rest)
  end.

End lex.

(** ** Package dfa (the generic automaton) *)
Module dfa.

(** Modelled from the spec: package [dfa] is not part of the sources at hand.
    Section 4.1 of the specification describes it: a builder collects
    [(fromState, toState)] edges, at most one on-enter hook per state and the
    accepting states; [Start] compiles them into a machine, or fails when the
    initial state is unknown.  An edge into a state is labelled by that
    state's name. *)
Section Machine.

(** [S] is the data the hooks act on (they are closures over it), [E] the
    errors they return. *)
Context {S E : Type}.

Definition Hook : Type := S -> Go.Run (option E * S).

Record MachineBuilder : Type := mkBuilder
  { paths : list (string * string);
    hooks : list (string * Hook);
    accepting : list string }.

Definition NewMachineBuilder : MachineBuilder :=
  {| paths := []; hooks := []; accepting := [] |}.

Definition Path (from to : string) (b : MachineBuilder) : MachineBuilder :=
  {| paths := paths b ++ [(from, to)];
     hooks := hooks b;
     accepting := accepting b |}.

(** Modelled from the spec: the batch form, many-to-many. *)
Definition Paths (froms tos : list string) (b : MachineBuilder) : MachineBuilder :=
  {| paths := paths b ++ (from ← froms; to ← tos; [(from, to)]);
     hooks := hooks b;
     accepting := accepting b |}.

Definition WhenEntering (state : string) (h : Hook) (b : MachineBuilder)
  : MachineBuilder :=
  {| paths := paths b;
     hooks := (state, h) :: hooks b;
     accepting := accepting b |}.

Definition Accept (state : string) (b : MachineBuilder) : MachineBuilder :=
  {| paths := paths b;
     hooks := hooks b;
     accepting := accepting b ++ [state] |}.

Record Machine : Type := mkMachine
  { current : string;
    table : MachineBuilder }.

Definition known (b : MachineBuilder) (state : string) : bool :=
  bool_decide (state ∈ (paths b).*1 ++ (paths b).*2).

(** Modelled from the spec: [Start] fails if the initial state is unknown. *)
Definition Start (initial : string) (b : MachineBuilder) : option Machine :=
  if known b initial then Some {| current := initial; table := b |} else None.

Definition has_path (b : MachineBuilder) (from to : string) : bool :=
  bool_decide ((from, to) ∈ paths b).

Definition hook_of (b : MachineBuilder) (state : string) : option Hook :=
  snd ∘ snd <$> list_find (λ sh, sh.1 = state) (hooks b).

(** The error a machine returns: its own "unexpected input" condition, or
    the value a failing hook returned, handed on unchanged. *)
Inductive error : Type :=
| UnexpectedInput (state input : string)
| FromHook (e : E).

(** Modelled from the spec: [Transition] looks up an edge from the current
    state labelled by the input; without one it fails; otherwise it moves to
    the target and runs the target's hook, and a hook failure leaves the
    machine in the state it was in. *)
Definition Transition (input : string) (m : Machine) (s : S)
  : Go.Run (option error * Machine * S) :=
  if has_path (table m) (current m) input then
    match hook_of (table m) input with
    | None => Go.Returns (None, {| current := input; table := table m |}, s)
    | Some h =>
        '(err, s') ← h s;
        match err with
        | Some e => Go.Returns (Some (FromHook e), m, s')
        | None => Go.Returns (None, {| current := input; table := table m |}, s')
        end
    end
  else Go.Returns (Some (UnexpectedInput (current m) input), m, s).

(** Modelled from the spec: [Finish] fails unless the current state is
    accepting. *)
Definition Finish (m : Machine) : option error :=
  if bool_decide (current m ∈ accepting (table m)) then None
  else Some (UnexpectedInput (current m) "").

End Machine.

Arguments MachineBuilder : clear implicits.
Arguments Machine : clear implicits.
Arguments Hook : clear implicits.
Arguments error : clear implicits.

End dfa.

(** ** Package parse *)
Module parse.

Import lex.

(** *** Syntax tree *)

(** Modelled from the spec: the node variants (section 3); their Go
    declarations are not part of the sources at hand.  [RootNode] owns its
    statements, the container variants own their children, [If] owns its
    condition and its body children. *)
Inductive Node : Type :=
| RootNode (statements : list Node)
| Statement (children : list Node)
| FunctionCall (identifier : string) (children : list Node)
| StringLiteral (value : string)
| NumberLiteral (value : float)
| BooleanLiteral (value : bool)
| Operator (operator : string) (children : list Node)
| Let (type identifier : string) (children : list Node)
| Identifier (identifier : string)
| Assignment (identifier : string) (children : list Node)
| Group (children : list Node)
| If (condition : Node) (children : list Node).

(** The type assertion [node.(ContainsChildren)]: the variants that embed a
    parent node.  [RootNode] keeps statements instead and is handled apart
    wherever the sources look at it. *)
Definition Children (n : Node) : option (list Node) :=
  match n with
  | Statement c | FunctionCall _ c | Operator _ c | Let _ _ c
  | Assignment _ c | Group c | If _ c => Some c
  | RootNode _ | StringLiteral _ | NumberLiteral _ | BooleanLiteral _
  | Identifier _ => None
  end.

Definition ContainsChildren (n : Node) : bool :=
  match Children n with Some _ => true | None => false end.

Definition isRoot (n : Node) : bool :=
  match n with RootNode _ => true | _ => false end.

(** [parent.Push(node)] *)
Definition Push (node : Node) (parent : Node) : Node :=
  match parent with
  | Statement c => Statement (c ++ [node])
  | FunctionCall i c => FunctionCall i (c ++ [node])
  | Operator o c => Operator o (c ++ [node])
  | Let t i c => Let t i (c ++ [node])
  | Assignment i c => Assignment i (c ++ [node])
  | Group c => Group (c ++ [node])
  | If b c => If b (c ++ [node])
  | other => other
  end.

(** [root.PushStatement(statement)] *)
Definition PushStatement (statement : Node) (root : Node) : Node :=
  match root with
  | RootNode s => RootNode (s ++ [statement])
  | other => other
  end.

Definition NewFunctionCall (identifier : string) : Node := FunctionCall identifier [].
Definition NewString (value : string) : Node := StringLiteral value.
Definition NewNumber (value : float) : Node := NumberLiteral value.
Definition NewBoolean (value : bool) : Node := BooleanLiteral value.

(** *** Pointers into the tree

    The parser's node stack holds pointers to nodes that are also reachable
    from the root.  A pointer is the path of child positions from the root;
    the root itself is the empty path.  Children are only ever appended, so
    a path keeps denoting the same node. *)
Definition ptr : Set := list nat.

Definition owned (n : Node) : option (list Node) :=
  match n with
  | RootNode s => Some s
  | other => Children other
  end.

Definition with_owned (n : Node) (l : list Node) : Node :=
  match n with
  | RootNode _ => RootNode l
  | Statement _ => Statement l
  | FunctionCall i _ => FunctionCall i l
  | Operator o _ => Operator o l
  | Let t i _ => Let t i l
  | Assignment i _ => Assignment i l
  | Group _ => Group l
  | If b _ => If b l
  | leaf => leaf
  end.

Fixpoint node_at (x : ptr) (t : Node) : option Node :=
  match x with
  | [] => Some t
  | i :: x' => l ← owned t; n ← l !! i; node_at x' n
  end.

Fixpoint modify (x : ptr) (f : Node -> Node) (t : Node) : Node :=
  match x with
  | [] => f t
  | i :: x' =>
      match owned t with
      | Some l => with_owned t (alter (modify x' f) i l)
      | None => t
      end
  end.

(** *** Errors of [Parse] *)

Record UnexpectedTokenError : Set := mkUnexpectedTokenError { l : Lexeme }.

(** [InvalidNumberError] embeds an [UnexpectedTokenError]. *)
Record InvalidNumberError : Set :=
  mkInvalidNumberError { unexpected : UnexpectedTokenError }.

(** The [error] values [Parse] can hand to its caller: the automaton's own
    condition, the two error structs of this package and the
    [UnterminatedStatement] sentinel. *)
Inductive error : Set :=
| MachineError (state input : string)
| UnexpectedToken (e : UnexpectedTokenError)
| InvalidNumber (e : InvalidNumberError)
| UnterminatedStatement.

(** The type assertion [err.(InvalidNumberError)] and the comparison
    [err == UnterminatedStatement] of the tests. *)
Definition isInvalidNumber (e : error) : bool :=
  match e with InvalidNumber _ => true | _ => false end.

Definition isUnterminatedStatement (e : error) : bool :=
  match e with UnterminatedStatement => true | _ => false end.

(** The generic unexpected-token condition: the automaton found no
    transition, or a plain [UnexpectedTokenError]. *)
Definition isUnexpectedToken (e : error) : bool :=
  match e with MachineError _ _ | UnexpectedToken _ => true | _ => false end.

(** *** The parser *)

(** The fields of [parser] that its hooks read and write, and [root], the
    tree that [Parse] allocates and the node stack points into.  The [dfa]
    and [lexer] fields are kept in [Parser] below, since the automaton's
    hooks are closures over this record. *)
Record parser : Type := mkParser
  { current : Lexeme;
    nodeStack : list ptr;
    statementStack : list ptr;
    root : Node }.

Definition set_current (c : Lexeme) (p : parser) : parser :=
  {| current := c; nodeStack := nodeStack p;
     statementStack := statementStack p; root := root p |}.

Definition set_nodeStack (s : list ptr) (p : parser) : parser :=
  {| current := current p; nodeStack := s;
     statementStack := statementStack p; root := root p |}.

Definition set_root (r : Node) (p : parser) : parser :=
  {| current := current p; nodeStack := nodeStack p;
     statementStack := statementStack p; root := r |}.

(** Dereferencing a pointer held by the parser. *)
Definition deref (p : parser) (x : ptr) : Go.Run Node :=
  match node_at x (root p) with
  | Some n => Go.Returns n
  | None => Go.Stuck
  end.

(** [p.nodeStack[len(p.nodeStack)-1]] *)
Definition getContext (p : parser) : Go.Run ptr :=
  match last (nodeStack p) with
  | Some c => Go.Returns c
  | None => Go.Panics Go.index_out_of_range
  end.

Definition push (node : Node) (p : parser) : Go.Run parser :=
  context ← getContext p;
  target ← deref p context;
  (* Insert a statement if we need to. *)
  p ← match target with
      | RootNode s =>
          let statement := context ++ [length s] in
          Go.Returns
            (set_nodeStack (nodeStack p ++ [statement])
               (set_root (modify context (PushStatement (Statement [])) (root p)) p))
      | _ => Go.Returns p
      end;
  context ← getContext p;
  target ← deref p context;
  match Children target with
  | Some c =>
      let here := context ++ [length c] in
      let p := set_root (modify context (Push node) (root p)) p in
      if ContainsChildren node
      then Go.Returns (set_nodeStack (nodeStack p ++ [here]) p)
      else Go.Returns p
  | None =>
      (* the node stays unattached; a container would go on the stack
         without being reachable from the root *)
      if ContainsChildren node then Go.Stuck else Go.Returns p
  end.

Definition createIdentifier (p : parser) : Go.Run (option error * parser) :=
  p ← push (NewFunctionCall (Value (current p))) p;
  Go.Returns (None, p).

Definition createStringLiteral (p : parser) : Go.Run (option error * parser) :=
  p ← push (NewString (Value (current p))) p;
  Go.Returns (None, p).

Definition createBooleanLiteral (p : parser) : Go.Run (option error * parser) :=
  p ← push (NewBoolean (bool_decide (Type' (current p) = LBoolTrue))) p;
  Go.Returns (None, p).

(** [p.nodeStack[0 : len(p.nodeStack)-1]] *)
Definition closeNode (p : parser) : Go.Run (option error * parser) :=
  match nodeStack p with
  | [] => Go.Panics Go.slice_out_of_range
  | s => Go.Returns (None, set_nodeStack (take (length s - 1) s) p)
  end.

Section Parser.

(** [strconv.ParseFloat(text, 64)]: the float, or [None] for a syntax or
    range error. *)
Variable ParseFloat : string -> option float.

Definition createNumberLiteral (p : parser) : Go.Run (option error * parser) :=
  match ParseFloat (Value (current p)) with
  | Some number =>
      p ← push (NewNumber number) p;
      Go.Returns (None, p)
  | None =>
      Go.Returns
        (Some (InvalidNumber (mkInvalidNumberError (mkUnexpectedTokenError (current p)))), p)
  end.

Record Parser : Type := mkParserObject
  { lexer : Lexer;
    dfa : dfa.Machine parser error;
    self : parser }.

Definition start : string := "start".
Definition literals : list string := [LNumber; LQuoted; LBoolTrue; LBoolFalse].

Definition builder : dfa.MachineBuilder parser error :=
  dfa.Accept LSemiColon
  (dfa.WhenEntering LBoolFalse createBooleanLiteral
  (dfa.WhenEntering LBoolTrue createBooleanLiteral
  (dfa.WhenEntering LNumber createNumberLiteral
  (dfa.WhenEntering LSemiColon closeNode
  (dfa.WhenEntering LParenClose closeNode
  (dfa.WhenEntering LQuoted createStringLiteral
  (dfa.WhenEntering LIdentifier createIdentifier
  (dfa.Paths [LSemiColon] literals
  (dfa.Paths literals [LSemiColon]
  (dfa.Path LParenClose LSemiColon
  (dfa.Path LQuoted LParenClose
  (dfa.Path LParenOpen LQuoted
  (dfa.Path LIdentifier LParenOpen
  (dfa.Paths [start] (literals ++ [LIdentifier])
   dfa.NewMachineBuilder)))))))))))))).

(** The zero value of the parser's own fields. *)
Definition zero : parser :=
  {| current := MakeLexeme "" "" 0; nodeStack := [];
     statementStack := []; root := RootNode [] |}.

Definition NewParser (lexer : Lexer) : Go.Run Parser :=
  (* parser := parser{lexer: lexer}; machine, err := builder.Start(start) *)
  match dfa.Start start builder with
  | Some machine => Go.Returns {| lexer := lexer; dfa := machine; self := zero |}
  | None => Go.Panics "Cannot build parse machine"
  end.

(** The error a transition reports, as the [error] value [Parse] returns. *)
Definition as_error (e : dfa.error error) : error :=
  match e with
  | dfa.UnexpectedInput state input => MachineError state input
  | dfa.FromHook e => e
  end.

(** The [for] loop of [Parse] over what the lexer still holds: [[]] is
    [GetNext] reporting exhaustion. *)
Fixpoint feed (lexemes : Lexer) (m : dfa.Machine parser error) (p : parser)
  : Go.Run (option error * dfa.Machine parser error * parser) :=
  match lexemes with
  | [] => Go.Returns (None, m, p)
  | lexeme :: rest =>
      (* We don't care about whitespace *)
      if bool_decide (Type' lexeme = LWhitespace) then feed rest m p
      else
        let p := set_current lexeme p in
        '(err, m, p) ← dfa.Transition (Type' lexeme) m p;
        match err with
        | Some e => Go.Returns (Some (as_error e), m, p)
        | None => feed rest m p
        end
  end.

(** [root := &RootNode{}; p.nodeStack = []Node{root}] *)
Definition begin (p : parser) : parser :=
  set_nodeStack [[]] (set_root (RootNode []) p).

(** [Parse], with the parser as it is left behind. *)
Definition run (P : Parser) : Go.Run (Node * option error * Parser) :=
  let p := begin (self P) in
  '(err, m, p) ← feed (lexer P) (dfa P) p;
  let P' := {| lexer := lexer P; dfa := m; self := p |} in
  match err with
  | Some e => Go.Returns (root p, Some e, P')
  | None =>
      match dfa.Finish m with
      | Some _ => Go.Returns (root p, Some UnterminatedStatement, P')
      | None => Go.Returns (root p, None, P')
      end
  end.

Definition Parse (P : Parser) : Go.Run (Node * option error) :=
  '(tree, err, _) ← run P; Go.Returns (tree, err).

(** [NewParser(lexer).Parse()] *)
Definition parse_lexemes (lexemes : Lexer) : Go.Run (Node * option error) :=
  P ← NewParser lexemes; Parse P.

End Parser.

End parse.

(** ** Package runtime *)
Module runtime.

Import parse.

(** *** Values and types *)

(** Modelled from the spec: the opaque type identities, used only for
    matching. *)
Inductive Type' : Set :=
| TypeString | TypeBoolean | TypeNumber | TypeInvokable.

#[global] Instance Type'_eq_dec : EqDecision Type'.
Proof. solve_decision. Defined.

(** The invokables: the two native operations of functions_arithmetic.go and
    the natives defined elsewhere, known here by name only. *)
Inductive Invokable : Set :=
| AddNumbers
| SubtractNumbers
| Native (name : string).

(** Modelled from the spec: the runtime values (section 3).  [nilValue] is
    Go's nil [Value], the absence value. *)
Inductive Value : Set :=
| Number (value : float)
| String (value : string)
| Boolean (value : bool)
| Callable (invokable : Invokable)
| nilValue.

(** [value.Type()]; on the nil interface the method call panics. *)
Definition Type_of (v : Value) : Go.Run Type' :=
  match v with
  | Number _ => Go.Returns TypeNumber
  | String _ => Go.Returns TypeString
  | Boolean _ => Go.Returns TypeBoolean
  | Callable _ => Go.Returns TypeInvokable
  | nilValue => Go.Panics Go.nil_dereference
  end.

(** *** Errors *)

Inductive error : Type :=
| UnknownType (name : string)
| UnknownIdentifier (identifier : string) (node : option Node)
| UnknownOperator (operator : string) (operands : list Type') (node : option Node)
| InvalidType (node : option Node)
| AlreadyDefined (identifier : string)
| New (message : string). (* errors.New *)

(** *** The symbol table *)

(** Modelled from the spec: the Table (section 4.3); its Go source is not
    part of the sources at hand.  Registered types and functions by name,
    operators by symbol and exact operand-type list, variables by name with
    their declared type and current value. *)
Record Table : Type := mkTable
  { types : gmap string Type';
    functions : gmap string Invokable;
    operators : list (string * list Type' * Invokable);
    values : gmap string (Type' * Value) }.

Definition NewTable : Table :=
  {| types := ∅; functions := ∅; operators := []; values := ∅ |}.

Definition AddType (name : string) (t : Type') (tb : Table) : Table :=
  {| types := <[name := t]> (types tb); functions := functions tb;
     operators := operators tb; values := values tb |}.

Definition AddFunction (name : string) (i : Invokable) (tb : Table) : Table :=
  {| types := types tb; functions := <[name := i]> (functions tb);
     operators := operators tb; values := values tb |}.

Definition AddOperator (symbol : string) (operands : list Type') (i : Invokable)
    (tb : Table) : Table :=
  {| types := types tb; functions := functions tb;
     operators := operators tb ++ [(symbol, operands, i)]; values := values tb |}.

Definition set_values (v : gmap string (Type' * Value)) (tb : Table) : Table :=
  {| types := types tb; functions := functions tb;
     operators := operators tb; values := v |}.

Definition Table_Type (tb : Table) (name : string) : Type' + error :=
  match types tb !! name with
  | Some t => inl t
  | None => inr (UnknownType name)
  end.

Definition Table_Invokable (tb : Table) (name : string) : Invokable + error :=
  match functions tb !! name with
  | Some i => inl i
  | None => inr (UnknownIdentifier name None)
  end.

Definition Table_Operator (tb : Table) (symbol : string) (operands : list Type')
  : Invokable + error :=
  match list_find (λ e, e.1 = (symbol, operands)) (operators tb) with
  | Some (_, (_, i)) => inl i
  | None => inr (UnknownOperator symbol operands None)
  end.

Definition Table_Define (tb : Table) (name : string) (t : Type')
  : option error * Table :=
  match values tb !! name with
  | Some _ => (Some (AlreadyDefined name), tb)
  | None => (None, set_values (<[name := (t, nilValue)]> (values tb)) tb)
  end.

(** A value without a type matches no declared type. *)
Definition has_type (v : Value) (t : Type') : bool :=
  match Type_of v with
  | Go.Returns t' => bool_decide (t' = t)
  | _ => false
  end.

Definition Table_Set (tb : Table) (name : string) (v : Value)
  : option error * Table :=
  match values tb !! name with
  | None => (Some (UnknownIdentifier name None), tb)
  | Some (t, _) =>
      if has_type v t
      then (None, set_values (<[name := (t, v)]> (values tb)) tb)
      else (Some (InvalidType None), tb)
  end.

Definition Table_Get (tb : Table) (name : string) : Value * option error :=
  match values tb !! name with
  | Some (_, v) => (v, None)
  | None => (nilValue, Some (UnknownIdentifier name None))
  end.

(** *** Evaluation context *)

(** The table and the three byte streams; a stream is the text read from or
    written to it. *)
Record Context : Type := mkContext
  { table : Table; Input : string; Output : string; Error : string }.

Definition set_table (tb : Table) (c : Context) : Context :=
  {| table := tb; Input := Input c; Output := Output c; Error := Error c |}.

(** What an [Invoke] or an evaluation step yields: the returned pair and
    the context as the call leaves it. *)
Definition Result : Type := Go.Run (option error * Value * Context).

(** *** Native arithmetic *)

Definition AddNumbers_Invoke (context : Context) (args : list Value) : Result :=
  match args !! 0%nat with
  | None => Go.Panics Go.index_out_of_range
  | Some (Number one) =>
      match args !! 1%nat with
      | None => Go.Panics Go.index_out_of_range
      | Some (Number two) => Go.Returns (None, Number (one + two)%float, context)
      | Some _ =>
          Go.Returns
            (Some (New "Invalid operands. Number addition requires two numbers"),
             nilValue, context)
      end
  | Some _ =>
      Go.Returns
        (Some (New "Invalid operands. Number addition requires two numbers"),
         nilValue, context)
  end.

Definition SubtractNumbers_Invoke (context : Context) (args : list Value) : Result :=
  match args !! 0%nat with
  | None => Go.Panics Go.index_out_of_range
  | Some (Number one) =>
      match args !! 1%nat with
      | None => Go.Panics Go.index_out_of_range
      | Some (Number two) => Go.Returns (None, Number (one - two)%float, context)
      | Some _ =>
          Go.Returns
            (Some (New "Invalid operands. Subtraction requires two numbers"),
             nilValue, context)
      end
  | Some _ =>
      Go.Returns
        (Some (New "Invalid operands. Subtraction requires two numbers"),
         nilValue, context)
  end.

(** *** The evaluator *)

Section Evaluator.

(** The [Invoke] of the natives that are registered by name and defined
    outside the two source files: any behaviour is allowed for them. *)
Variable native : string -> Context -> list Value -> Result.

Definition Invoke (i : Invokable) (context : Context) (args : list Value) : Result :=
  match i with
  | AddNumbers => AddNumbers_Invoke context args
  | SubtractNumbers => SubtractNumbers_Invoke context args
  | Native name => native name context args
  end.

Definition evaluateFunctionCall (identifier : string) (args : list Value)
    (context : Context) : Result :=
  match Table_Invokable (table context) identifier with
  | inr err => Go.Returns (Some err, nilValue, context)
  | inl invokable =>
      '(_, _, context) ← Invoke invokable context args;
      Go.Returns (None, nilValue, context)
  end.

(** The loop collecting [arg.Type()] for every argument. *)
Fixpoint operand_types (args : list Value) : Go.Run (list Type') :=
  match args with
  | [] => Go.Returns []
  | arg :: rest => t ← Type_of arg; ts ← operand_types rest; Go.Returns (t :: ts)
  end.

Definition evaluateOperator (node : Node) (operator : string) (args : list Value)
    (context : Context) : Result :=
  operands ← operand_types args;
  match Table_Operator (table context) operator operands with
  | inr (UnknownOperator o ts _) =>
      Go.Returns (Some (UnknownOperator o ts (Some node)), nilValue, context)
  | inr err => Go.Returns (Some err, nilValue, context)
  | inl invokable => Invoke invokable context args
  end.

Definition applyUnknownIdentifierNode (err : option error) (identifier : Node)
  : option error :=
  match err with
  | Some (UnknownIdentifier i _) => Some (UnknownIdentifier i (Some identifier))
  | _ => None
  end.

Definition setValue (identifier : string) (value : Value) (context : Context)
  : option error * Context :=
  let '(err, tb) := Table_Set (table context) identifier value in
  let context := set_table tb context in
  match err with
  | Some (InvalidType _) => (Some (InvalidType (Some (Identifier identifier))), context)
  | _ => (applyUnknownIdentifierNode err (Identifier identifier), context)
  end.

Definition evaluateLet (type identifier : string) (args : list Value)
    (context : Context) : Result :=
  if (1 <? length args)%nat then
    Go.Returns
      (Some (New "Assignment with declaration must have at most one value"),
       nilValue, context)
  else
    match Table_Type (table context) type with
    | inr err => Go.Returns (Some err, nilValue, context)
    | inl valueType =>
        let '(err, tb) := Table_Define (table context) identifier valueType in
        let context := set_table tb context in
        match err with
        | Some err => Go.Returns (Some err, nilValue, context)
        | None =>
            match args with
            | [value] =>
                let '(err, context) := setValue identifier value context in
                Go.Returns (err, nilValue, context)
            | _ => Go.Returns (None, nilValue, context)
            end
        end
    end.

Definition evaluateIdentifier (identifier : string) (args : list Value)
    (context : Context) : Result :=
  let '(val, err) := Table_Get (table context) identifier in
  Go.Returns (applyUnknownIdentifierNode err (Identifier identifier), val, context).

Definition evaluateAssignment (identifier : string) (args : list Value)
    (context : Context) : Result :=
  match args with
  | [value] =>
      let '(err, context) := setValue identifier value context in
      Go.Returns (err, nilValue, context)
  | _ =>
      Go.Returns (Some (New "Assignment must have at exactly one value"),
                  nilValue, context)
  end.

Definition group_message (n : nat) : string :=
  "Group should not have more than 1 child, actually has: " +:+ pretty n.

Section Recursion.

(** The recursive call [e.evaluate], as seen from the two loops. *)
Variable evaluate : Node -> Context -> Result.

(** [for _, child := range ... { if err, arg := e.evaluate(child); err != nil
    { return err, nil } else { args = append(args, arg) } }] *)
Fixpoint collect (children : list Node) (args : list Value) (context : Context)
  : Go.Run (option error * list Value * Context) :=
  match children with
  | [] => Go.Returns (None, args, context)
  | child :: rest =>
      '(err, arg, context) ← evaluate child context;
      match err with
      | Some e => Go.Returns (Some e, args, context)
      | None => collect rest (args ++ [arg]) context
      end
  end.

(** [for _, child := range node.ParentNode.Children() { e.evaluate(child) }] *)
Fixpoint each (children : list Node) (context : Context) : Go.Run Context :=
  match children with
  | [] => Go.Returns context
  | child :: rest =>
      '(_, _, context) ← evaluate child context;
      each rest context
  end.

Definition evaluateIf (condition : Node) (children : list Node) (context : Context)
  : Go.Run (option error * Context) :=
  '(err, result, context) ← evaluate condition context;
  match err with
  | Some err => Go.Returns (Some err, context)
  | None =>
      match result with
      | Boolean boolValue =>
          if boolValue
          then context ← each children context; Go.Returns (None, context)
          else Go.Returns (None, context)
      | _ =>
          Go.Returns (Some (New "If condition must evaluate to boolean"), context)
      end
  end.

End Recursion.

(** What [evaluate] does with a node once the results of its children are
    collected in [args]. *)
Definition dispatch (node : Node) (args : list Value) (context : Context) : Result :=
  match node with
  | StringLiteral value => Go.Returns (None, String value, context)
  | NumberLiteral value => Go.Returns (None, Number value, context)
  | BooleanLiteral value => Go.Returns (None, Boolean value, context)
  | FunctionCall identifier _ => evaluateFunctionCall identifier args context
  | Operator operator _ => evaluateOperator node operator args context
  | Let type identifier _ => evaluateLet type identifier args context
  | Identifier identifier => evaluateIdentifier identifier args context
  | Assignment identifier _ => evaluateAssignment identifier args context
  | Group _ =>
      match args with
      | [arg] => Go.Returns (None, arg, context)
      | _ => Go.Returns (Some (New (group_message (length args))), nilValue, context)
      end
  (* Nothing to do with statements/root as these are AST constructs (for now). *)
  | Statement _ => Go.Returns (None, nilValue, context)
  | RootNode _ => Go.Returns (None, nilValue, context)
  (* [If] is taken care of before the children are collected; no case here
     matches it, which leaves the closing [return]. *)
  | If _ _ =>
      Go.Returns (Some (New "Handling for node not yet implemented."),
                  nilValue, context)
  end.

Fixpoint evaluate (node : Node) (context : Context) {struct node} : Result :=
  match node with
  | If condition children =>
      '(err, context) ← evaluateIf evaluate condition children context;
      Go.Returns (err, nilValue, context)
  | _ =>
      '(err, args, context) ←
        match node with
        | RootNode statements => collect evaluate statements [] context
        | Statement children | FunctionCall _ children | Operator _ children
        | Let _ _ children | Assignment _ children | Group children =>
            collect evaluate children [] context
        | _ => Go.Returns (None, [], context)
        end;
      match err with
      | Some e => Go.Returns (Some e, nilValue, context)
      | None => dispatch node args context
      end
  end.

Definition Evaluate (node : Node) (context : Context) : Go.Run (option error * Context) :=
  '(err, _, context) ← evaluate node context;
  Go.Returns (err, context).

End Evaluator.

(** [NewEvaluator]: the table every evaluator starts from. *)
Definition NewEvaluator (input output error : string) : Context :=
  let number2 := [TypeNumber; TypeNumber] in
  let table :=
    AddOperator ">" number2 (Native "GreaterThan")
    (AddOperator "<" number2 (Native "LessThan")
    (AddOperator "==" number2 (Native "Equality")
    (AddOperator "||" [TypeBoolean; TypeBoolean] (Native "LogicOr")
    (AddOperator "&&" [TypeBoolean; TypeBoolean] (Native "LogicAnd")
    (AddOperator "+" [TypeString; TypeString] (Native "StringConcatenation")
    (AddOperator "/" number2 (Native "DivideNumbers")
    (AddOperator "*" number2 (Native "MultiplyNumbers")
    (AddOperator "-" number2 SubtractNumbers
    (AddOperator "+" number2 AddNumbers
    (AddFunction "println" (Native "Println")
    (AddType "number" TypeNumber
    (AddType "boolean" TypeBoolean
    (AddType "string" TypeString NewTable))))))))))))) in
  {| table := table; Input := input; Output := output; Error := error |}.

End runtime.

(** * Properties of the parser *)

(** ** Notions used in the statements *)
Module ParseSpec.

Import lex parse.

(** A pointer on the node stack is in order when it resolves to a node that
    holds other nodes. *)
Definition valid (t : Node) (x : ptr) : Prop :=
  exists n, node_at x t = Some n /\ is_Some (owned n).

(** The tree updates of the parser only append to what a node holds. *)
Definition grows (f : Node -> Node) : Prop :=
  forall t,
    match owned t with
    | Some l => exists extra, f t = with_owned t (l ++ extra)
    | None => f t = t
    end.

Definition in_order (p : parser) : Prop := Forall (valid (root p)) (nodeStack p).

Definition keeps_order {A} (r : Go.Run A) (get : A -> parser) : Prop :=
  match r with
  | Go.Returns a => in_order (get a)
  | Go.Panics _ => True
  | Go.Stuck => False
  end.

(** The lexemes that reach the automaton. *)
Definition significant (lexemes : list Lexeme) : list Lexeme :=
  filter (fun x => Type' x <> LWhitespace) lexemes.

(** [terminated sig lits]: the lexemes [sig] are the lexemes [lits], each
    followed by a semicolon lexeme. *)
Inductive terminated : list Lexeme -> list Lexeme -> Prop :=
| terminated_nil : terminated [] []
| terminated_cons x semi rest lits :
    Type' semi = LSemiColon ->
    terminated rest lits ->
    terminated (x :: semi :: rest) (x :: lits).

Definition orderly (h : dfa.Hook parser error) : Prop :=
  forall p, in_order p -> keeps_order (h p) snd.

Definition statement_of (n : Node) : Node := Statement [n].

(** The parser [NewParser] returns, before its first [Parse]. *)
Definition fresh (ParseFloat : string -> option float) (lexemes : Lexer) : Parser :=
  {| lexer := lexemes;
     dfa := {| dfa.current := start; dfa.table := builder ParseFloat |};
     self := zero |}.

(** The invalid-number condition for a lexeme. *)
Definition invalid_number (x : Lexeme) : error :=
  InvalidNumber (mkInvalidNumberError (mkUnexpectedTokenError x)).

Section Literals.

Variable ParseFloat : string -> option float.

(** The literal node a lexeme stands for: its kind decides the variant, its
    text the value. *)
Definition literal_node (x : Lexeme) : option Node :=
  if decide (Type' x = LQuoted) then Some (StringLiteral (Value x))
  else if decide (Type' x = LNumber) then NumberLiteral <$> ParseFloat (Value x)
  else if decide (Type' x = LBoolTrue) then Some (BooleanLiteral true)
  else if decide (Type' x = LBoolFalse) then Some (BooleanLiteral false)
  else None.

Definition between_statements (m : dfa.Machine parser error) : Prop :=
  dfa.table m = builder ParseFloat /\
  (dfa.current m = start \/ dfa.current m = LSemiColon).

End Literals.

(** A stand-in for [strconv.ParseFloat] on the texts of the tests. *)
Definition sample_ParseFloat (text : string) : option float :=
  if decide (text = "1.34") then Some 0x1.570a3d70a3d71p+0%float
  else if decide (text = "3.42") then Some 0x1.b5c28f5c28f5cp+1%float
  else None.

End ParseSpec.

(** * Properties of the evaluator *)

(** ** Notions used in the statements *)
Module RuntimeSpec.

Import parse runtime.

(** A native that fails: it returns both an error and a value. *)
Definition failing_native (name : string) (context : Context) (args : list Value)
  : Result :=
  Go.Returns (Some (New "native failure"), String "partial", context).

(** The type assertion [result.(Boolean)]. *)
Definition isBoolean (v : Value) : bool :=
  match v with Boolean _ => true | _ => false end.

Definition condition_must_be_boolean : error :=
  New "If condition must evaluate to boolean".

End RuntimeSpec.

(** ** Further notions on the parser and the evaluator *)
Module ExtraSpec.

Import lex parse ParseSpec.

Section Parser.

Variable ParseFloat : string -> option float.

(** What the loop can fail with: the automaton's refusal of a lexeme of the
    input, or the invalid-number condition for a number lexeme of the input. *)
Definition transition_failure (lexemes : list Lexeme) (e : error) : Prop :=
  (exists x state,
      x ∈ lexemes /\ Type' x <> LWhitespace /\
      dfa.has_path (builder ParseFloat) state (Type' x) = false /\
      e = MachineError state (Type' x)) \/
  (exists x,
      x ∈ lexemes /\ Type' x = LNumber /\ ParseFloat (Value x) = None /\
      e = invalid_number x).

(** The node stack while no closing parenthesis has been read: the root's
    pointer is its bottom frame, and within a statement there is a frame
    above it. *)
Definition rooted (m : dfa.Machine parser error) (p : parser) : Prop :=
  dfa.table m = builder ParseFloat /\
  in_order p /\
  isRoot (root p) = true /\
  (exists rest, nodeStack p = [] :: rest) /\
  dfa.current m <> LParenClose /\
  (dfa.current m <> start -> dfa.current m <> LSemiColon ->
   2 <= length (nodeStack p)).

Definition stays_rooted
    (r : Go.Run (option (dfa.error error) * dfa.Machine parser error * parser))
  : Prop :=
  match r with
  | Go.Returns (Some _, _, _) => True
  | Go.Returns (None, m', p') => rooted m' p'
  | _ => False
  end.

End Parser.

(** The children [evaluate] loops over before it looks at the node itself:
    the statements of a root, the children of a container other than [If]. *)
Definition looped (node : Node) : option (list Node) :=
  match node with
  | RootNode statements => Some statements
  | If _ _ => None
  | other => Children other
  end.

End ExtraSpec.

(** * Lemmas and theorems on the parser *)
Module ParseProps.

Import lex parse ParseSpec.

Lemma alter_end {A} (f : A -> A) (l : list A) (x : A) :
  alter f (length l) (l ++ [x]) = l ++ [f x].
Proof. by rewrite alter_app_r_alt, Nat.sub_diag. Qed.

Lemma lookup_end {A} (l : list A) (x : A) : (l ++ [x]) !! length l = Some x.
Proof. by rewrite list_lookup_middle. Qed.

Lemma owned_with_owned t l l' : owned t = Some l -> owned (with_owned t l') = Some l'.
Proof. destruct t; simpl; congruence. Qed.

Lemma grows_Push node : grows (Push node).
Proof. intros t; destruct t; simpl; eauto; exists []; by rewrite app_nil_r. Qed.

Lemma grows_PushStatement s : grows (PushStatement s).
Proof. intros t; destruct t; simpl; eauto; exists []; by rewrite app_nil_r. Qed.

Lemma owned_modify f y t :
  grows f -> is_Some (owned t) -> is_Some (owned (modify y f t)).
Proof.
  intros Hf [l Hl]. destruct y as [|j y]; simpl.
  - specialize (Hf t). rewrite Hl in Hf. destruct Hf as [extra ->].
    rewrite (owned_with_owned _ _ _ Hl). eauto.
  - rewrite Hl. rewrite (owned_with_owned _ _ _ Hl). eauto.
Qed.

Lemma valid_modify f y t x : grows f -> valid t x -> valid (modify y f t) x.
Proof.
  intros Hf. revert y t. induction x as [|i x IH]; intros y t [n [Hn Ho]].
  - simpl in Hn. injection Hn as <-. exists (modify y f t). split; [done|].
    by apply owned_modify.
  - simpl in Hn. destruct (owned t) as [l|] eqn:Hl; [|done]. simpl in Hn.
    destruct (l !! i) as [c|] eqn:Hc; [|done]. simpl in Hn.
    assert (Hv : valid c x) by (exists n; done).
    destruct y as [|j y]; simpl.
    + pose proof (Hf t) as Hft. rewrite Hl in Hft. destruct Hft as [extra ->].
      destruct Hv as [n' [Hn' Ho']]. exists n'. split; [|done].
      simpl. rewrite (owned_with_owned _ _ _ Hl). simpl.
      by rewrite (lookup_app_l_Some _ _ _ _ Hc).
    + rewrite Hl. destruct (decide (j = i)) as [->|Hne].
      * destruct (IH y c Hv) as [n' [Hn' Ho']]. exists n'. split; [|done].
        simpl. rewrite (owned_with_owned _ _ _ Hl). simpl.
        by rewrite list_lookup_alter_eq, Hc.
      * destruct Hv as [n' [Hn' Ho']]. exists n'. split; [|done].
        simpl. rewrite (owned_with_owned _ _ _ Hl). simpl.
        by rewrite list_lookup_alter_ne, Hc.
Qed.

Lemma node_at_modify f x t n :
  node_at x t = Some n -> node_at x (modify x f t) = Some (f n).
Proof.
  revert t. induction x as [|i x IH]; intros t Hn; simpl in *.
  - congruence.
  - destruct (owned t) as [l|] eqn:Hl; [|done]. simpl in Hn.
    destruct (l !! i) as [c|] eqn:Hc; [|done]. simpl in Hn.
    rewrite (owned_with_owned _ _ _ Hl). simpl.
    rewrite list_lookup_alter_eq, Hc. simpl. by apply IH.
Qed.

Lemma node_at_snoc x i t n l :
  node_at x t = Some n -> owned n = Some l -> node_at (x ++ [i]) t = l !! i.
Proof.
  revert t. induction x as [|j x IH]; intros t Hn Hl; simpl in *.
  - injection Hn as ->. rewrite Hl. simpl. by destruct (l !! i).
  - destruct (owned t) as [l'|]; [|done]. simpl in *.
    destruct (l' !! j) as [c|]; [|done]. simpl in *. by apply IH.
Qed.

Lemma valid_ContainsChildren n : ContainsChildren n = true -> is_Some (owned n).
Proof. destruct n; simpl; try discriminate; eauto. Qed.

Lemma owned_Push node t l :
  Children t = Some l -> owned (Push node t) = Some (l ++ [node]).
Proof. destruct t; simpl; congruence. Qed.

(** The second half of [push]: attaching the node under the context. *)
Lemma attach_in_order node p context target :
  in_order p ->
  last (nodeStack p) = Some context ->
  node_at context (root p) = Some target ->
  isRoot target = false ->
  is_Some (owned target) ->
  keeps_order
    (match Children target with
     | Some c =>
         let here := context ++ [length c] in
         let p := set_root (modify context (Push node) (root p)) p in
         if ContainsChildren node
         then Go.Returns (set_nodeStack (nodeStack p ++ [here]) p)
         else Go.Returns p
     | None => if ContainsChildren node then Go.Stuck else Go.Returns p
     end) id.
Proof.
  intros Hin Hlast Hat Hroot [l Hl].
  assert (Hc : Children target = Some l) by (destruct target; simpl in *; congruence).
  rewrite Hc. simpl.
  assert (Hold : Forall (valid (modify context (Push node) (root p))) (nodeStack p)).
  { eapply Forall_impl; [exact Hin|]. intros x Hx. apply valid_modify; [apply grows_Push|done]. }
  destruct (ContainsChildren node) eqn:Hnode; simpl; [|exact Hold].
  unfold in_order; simpl. apply Forall_app. split; [exact Hold|].
  apply Forall_singleton. exists node. split; [|by apply valid_ContainsChildren].
  rewrite (node_at_snoc _ _ _ _ (l ++ [node])
             (node_at_modify (Push node) _ _ _ Hat) (owned_Push _ _ _ Hc)).
  apply lookup_end.
Qed.

Lemma push_in_order node p : in_order p -> keeps_order (push node p) id.
Proof.
  intros Hin. unfold push, getContext, deref.
  destruct (last (nodeStack p)) as [context|] eqn:Hlast; simpl; [|done].
  assert (Hv : valid (root p) context).
  { eapply Forall_forall; [exact Hin|]. by apply last_Some_elem_of. }
  destruct Hv as [target [Hat Ho]]. rewrite Hat. simpl.
  destruct (isRoot target) eqn:Hroot.
  - destruct target as [s| | | | | | | | | | |]; try discriminate. simpl.
    rewrite last_snoc. simpl.
    set (root1 := modify context (PushStatement (Statement [])) (root p)).
    assert (Hnew : node_at (context ++ [length s]) root1 = Some (Statement [])).
    { unfold root1.
      rewrite (node_at_snoc _ _ _ _ (s ++ [Statement []])
                 (node_at_modify (PushStatement (Statement [])) _ _ _ Hat) eq_refl).
      apply lookup_end. }
    rewrite Hnew. simpl.
    set (p1 := set_nodeStack (nodeStack p ++ [context ++ [length s]]) (set_root root1 p)).
    apply (attach_in_order node p1 (context ++ [length s]) (Statement [])); simpl; eauto.
    + unfold in_order, p1; simpl. apply Forall_app. split.
      * eapply Forall_impl; [exact Hin|]. intros x Hx.
        apply valid_modify; [apply grows_PushStatement|done].
      * apply Forall_singleton. exists (Statement []). simpl; eauto.
    + apply last_snoc.
  - assert (Hsame : (match target with
                     | RootNode s =>
                         Go.Returns
                           (set_nodeStack (nodeStack p ++ [context ++ [length s]])
                              (set_root (modify context (PushStatement (Statement [])) (root p)) p))
                     | _ => Go.Returns p
                     end) = Go.Returns p) by (destruct target; try discriminate; done).
    rewrite Hsame. simpl. rewrite Hlast. simpl. rewrite Hat. simpl.
    by apply (attach_in_order node p context target).
Qed.

Lemma closeNode_in_order p : in_order p -> keeps_order (closeNode p) snd.
Proof.
  intros Hin. unfold closeNode.
  destruct (nodeStack p) as [|x s] eqn:Hs; [done|].
  unfold keeps_order, in_order. cbn [snd set_nodeStack nodeStack root].
  apply Forall_take. rewrite <- Hs. exact Hin.
Qed.

(** Pushing a leaf while only the root is on the stack: a statement is
    synthesized, the leaf becomes its only child, and the statement is the new
    context. *)
Lemma push_leaf_under_root node p stmts :
  ContainsChildren node = false ->
  nodeStack p = [[]] ->
  root p = RootNode stmts ->
  push node p =
  Go.Returns (set_nodeStack [[]; [length stmts]]
                (set_root (RootNode (stmts ++ [Statement [node]])) p)).
Proof.
  intros Hleaf Hstack Hroot. destruct p as [c st ss r]. simpl in *. subst.
  unfold push, getContext, deref. simpl.
  rewrite lookup_end. simpl. rewrite Hleaf.
  by rewrite alter_end.
Qed.

Lemma feed_significant (lexemes : list Lexeme) m p :
  feed lexemes m p = feed (significant lexemes) m p.
Proof.
  revert m p. induction lexemes as [|x lexemes IH]; intros m p; [done|].
  unfold significant. rewrite filter_cons. simpl.
  case_bool_decide as Hw.
  - rewrite decide_False by (intros Hn; by apply Hn). apply IH.
  - rewrite decide_True by done. simpl. rewrite bool_decide_false by done.
    destruct (dfa.Transition _ _ _) as [[[[e|] m'] p']| |]; simpl; auto.
Qed.

Section Props.

Variable ParseFloat : string -> option float.

(** The loop in terms of the lexer's [GetNext]. *)
Lemma feed_GetNext (lexemes : Lexer) m p :
  feed lexemes m p =
  match GetNext lexemes with
  | None => Go.Returns (None, m, p)
  | Some (lexeme, rest) =>
      if bool_decide (Type' lexeme = LWhitespace) then feed rest m p
      else
        '(err, m, p) ← dfa.Transition (Type' lexeme) m (set_current lexeme p);
        match err with
        | Some e => Go.Returns (Some (as_error e), m, p)
        | None => feed rest m p
        end
  end.
Proof. by destruct lexemes. Qed.

Lemma feed_app (a b : Lexer) m p :
  feed (a ++ b) m p =
  '(err, m', p') ← feed a m p;
  match err with
  | Some e => Go.Returns (Some e, m', p')
  | None => feed b m' p'
  end.
Proof.
  revert m p; induction a as [|x a IH]; intros m p; simpl; [done|].
  case_bool_decide; [apply IH|].
  destruct (dfa.Transition _ _ _) as [[[[e|] m'] p']| |]; simpl; auto.
Qed.

Lemma push_hook_orderly node p :
  in_order p -> keeps_order (p' ← push node p; Go.Returns (None (A:=error), p')) snd.
Proof.
  intros Hin. pose proof (push_in_order node p Hin) as H.
  destruct (push node p); simpl in *; done.
Qed.

Lemma createNumberLiteral_orderly : orderly (createNumberLiteral ParseFloat).
Proof.
  intros p Hin. unfold createNumberLiteral.
  destruct (ParseFloat _); [by apply push_hook_orderly | exact Hin].
Qed.

Lemma hooks_orderly input h :
  dfa.hook_of (builder ParseFloat) input = Some h -> orderly h.
Proof.
  unfold dfa.hook_of. cbn [builder dfa.hooks dfa.Accept dfa.WhenEntering dfa.Paths dfa.Path dfa.NewMachineBuilder].
  intros H.
  repeat (simpl in H; case_decide; [injection H as <-|]); try discriminate H.
  all: try (intros p Hin; by apply push_hook_orderly).
  all: try (intros p Hin; by apply closeNode_in_order).
  all: apply createNumberLiteral_orderly.
Qed.

Lemma Transition_in_order input m p :
  dfa.table m = builder ParseFloat -> in_order p ->
  match dfa.Transition input m p with
  | Go.Returns (_, m', p') => dfa.table m' = builder ParseFloat /\ in_order p'
  | Go.Panics _ => True
  | Go.Stuck => False
  end.
Proof.
  intros Hm Hin. unfold dfa.Transition.
  destruct (dfa.has_path _ _ _); [|done].
  destruct (dfa.hook_of (dfa.table m) input) as [h|] eqn:Hh; [|done].
  rewrite Hm in Hh. pose proof (hooks_orderly _ _ Hh p Hin) as Hk.
  destruct (h p) as [[[e|] p']| |]; simpl in *; done.
Qed.

Lemma in_order_set_current c p : in_order p -> in_order (set_current c p).
Proof. done. Qed.

Lemma feed_in_order lexemes m p :
  dfa.table m = builder ParseFloat -> in_order p ->
  match feed lexemes m p with
  | Go.Returns (_, m', p') => dfa.table m' = builder ParseFloat /\ in_order p'
  | Go.Panics _ => True
  | Go.Stuck => False
  end.
Proof.
  revert m p. induction lexemes as [|x lexemes IH]; intros m p Hm Hin; simpl; [done|].
  case_bool_decide; [by apply IH|].
  pose proof (Transition_in_order (Type' x) m (set_current x p) Hm
                (in_order_set_current x p Hin)) as Ht.
  destruct (dfa.Transition _ _ _) as [[[[e|] m'] p']| |]; simpl in *; try done.
  destruct Ht. by apply IH.
Qed.

Lemma in_order_begin p : in_order (begin p).
Proof.
  unfold in_order, begin; simpl. apply Forall_singleton.
  exists (RootNode []). simpl; eauto.
Qed.

(** The model of [Parse] is adequate: whatever the lexer yields, no pointer of
    the node stack ever fails to resolve. *)
Lemma Parse_never_stuck (lexemes : Lexer) :
  parse_lexemes ParseFloat lexemes <> Go.Stuck.
Proof.
  unfold parse_lexemes, NewParser. simpl. unfold Parse, run. simpl.
  pose proof (feed_in_order lexemes
                {| dfa.current := start; dfa.table := builder ParseFloat |}
                (begin zero) eq_refl (in_order_begin zero)) as H.
  destruct (feed _ _ _) as [[[[e|] m'] p']| |]; simpl in *; try done.
  destruct (dfa.Finish m'); done.
Qed.

Lemma hook_quoted :
  dfa.hook_of (builder ParseFloat) LQuoted = Some createStringLiteral.
Proof. reflexivity. Qed.
Lemma hook_number :
  dfa.hook_of (builder ParseFloat) LNumber = Some (createNumberLiteral ParseFloat).
Proof. reflexivity. Qed.
Lemma hook_true :
  dfa.hook_of (builder ParseFloat) LBoolTrue = Some createBooleanLiteral.
Proof. reflexivity. Qed.
Lemma hook_false :
  dfa.hook_of (builder ParseFloat) LBoolFalse = Some createBooleanLiteral.
Proof. reflexivity. Qed.
Lemma hook_semicolon :
  dfa.hook_of (builder ParseFloat) LSemiColon = Some closeNode.
Proof. reflexivity. Qed.

(** One turn of the loop on a lexeme whose hook succeeds. *)
Lemma feed_step x rest cur h p p' :
  Type' x <> LWhitespace ->
  dfa.has_path (builder ParseFloat) cur (Type' x) = true ->
  dfa.hook_of (builder ParseFloat) (Type' x) = Some h ->
  h (set_current x p) = Go.Returns (None, p') ->
  feed (x :: rest) {| dfa.current := cur; dfa.table := builder ParseFloat |} p =
  feed rest {| dfa.current := Type' x; dfa.table := builder ParseFloat |} p'.
Proof.
  intros Hw Hpath Hhook Hrun. cbn [feed].
  rewrite bool_decide_false by done.
  unfold dfa.Transition. cbn [dfa.table dfa.current].
  by rewrite Hpath, Hhook, Hrun.
Qed.

(** One statement [literal ;] read between statements. *)
Lemma feed_literal_statement x semi n rest m p stmts :
  between_statements ParseFloat m ->
  nodeStack p = [[]] ->
  root p = RootNode stmts ->
  literal_node ParseFloat x = Some n ->
  Type' semi = LSemiColon ->
  feed (x :: semi :: rest) m p =
  feed rest {| dfa.current := LSemiColon; dfa.table := builder ParseFloat |}
    {| current := semi; nodeStack := [[]]; statementStack := statementStack p;
       root := RootNode (stmts ++ [Statement [n]]) |}.
Proof.
  intros [Hm Hcur] Hstack Hroot Hn Hsemi.
  destruct m as [cur tb]. simpl in Hm, Hcur. subst tb.
  set (p1 := set_nodeStack [[]; [length stmts]]
               (set_root (RootNode (stmts ++ [Statement [n]])) (set_current x p))).
  assert (Hx : exists h,
             Type' x <> LWhitespace /\
             dfa.has_path (builder ParseFloat) cur (Type' x) = true /\
             dfa.has_path (builder ParseFloat) (Type' x) LSemiColon = true /\
             dfa.hook_of (builder ParseFloat) (Type' x) = Some h /\
             h (set_current x p) = Go.Returns (None, p1)).
  { unfold literal_node in Hn.
    destruct (decide (Type' x = LQuoted)) as [Hk|_];
      [|destruct (decide (Type' x = LNumber)) as [Hk|_];
        [|destruct (decide (Type' x = LBoolTrue)) as [Hk|_];
          [|destruct (decide (Type' x = LBoolFalse)) as [Hk|_];
            [|discriminate Hn]]]].
    - injection Hn as <-. exists createStringLiteral.
      rewrite Hk. repeat split; [done | by destruct Hcur as [-> | ->] |].
      unfold createStringLiteral.
      by rewrite (push_leaf_under_root _ _ stmts).
    - destruct (ParseFloat (Value x)) as [number|] eqn:Hnumber; [|discriminate Hn].
      injection Hn as <-. exists (createNumberLiteral ParseFloat).
      rewrite Hk. repeat split; [done | by destruct Hcur as [-> | ->] |].
      unfold createNumberLiteral. cbn [current set_current]. rewrite Hnumber.
      by rewrite (push_leaf_under_root _ _ stmts).
    - injection Hn as <-. exists createBooleanLiteral.
      rewrite Hk. repeat split; [done | by destruct Hcur as [-> | ->] |].
      unfold createBooleanLiteral. cbn [current set_current]. rewrite Hk.
      by rewrite (push_leaf_under_root _ _ stmts).
    - injection Hn as <-. exists createBooleanLiteral.
      rewrite Hk. repeat split; [done | by destruct Hcur as [-> | ->] |].
      unfold createBooleanLiteral. cbn [current set_current]. rewrite Hk.
      by rewrite (push_leaf_under_root _ _ stmts). }
  destruct Hx as (h & Hw & Hpath & Hterm & Hhook & Hrun).
  rewrite (feed_step x (semi :: rest) cur h p p1 Hw Hpath Hhook Hrun).
  rewrite (feed_step semi rest (Type' x) closeNode p1
             (set_nodeStack [[]] (set_current semi p1))).
  - by rewrite Hsemi.
  - by rewrite Hsemi.
  - by rewrite Hsemi.
  - by rewrite Hsemi.
  - done.
Qed.

Lemma feed_statements sig lits :
  terminated sig lits ->
  forall nodes m p stmts,
    Forall2 (fun x n => literal_node ParseFloat x = Some n) lits nodes ->
    between_statements ParseFloat m ->
    nodeStack p = [[]] ->
    root p = RootNode stmts ->
    exists m' p',
      feed sig m p = Go.Returns (None, m', p') /\
      dfa.table m' = builder ParseFloat /\
      (lits = [] -> m' = m) /\
      (lits <> [] -> dfa.current m' = LSemiColon) /\
      root p' = RootNode (stmts ++ (statement_of <$> nodes)).
Proof.
  induction 1 as [|x semi rest lits Hsemi Hrest IH];
    intros nodes m p stmts Hnodes Hm Hstack Hroot.
  - apply Forall2_nil_inv_l in Hnodes as ->. exists m, p. simpl.
    rewrite app_nil_r. destruct Hm as [Hm _]. done.
  - apply Forall2_cons_inv_l in Hnodes as (n & nodes' & Hn & Hnodes & ->).
    rewrite (feed_literal_statement x semi n rest m p stmts Hm Hstack Hroot Hn Hsemi).
    destruct (IH nodes'
                {| dfa.current := LSemiColon; dfa.table := builder ParseFloat |}
                {| current := semi; nodeStack := [[]];
                   statementStack := statementStack p;
                   root := RootNode (stmts ++ [Statement [n]]) |}
                (stmts ++ [Statement [n]]) Hnodes
                (conj eq_refl (or_intror eq_refl)) eq_refl eq_refl)
      as (m' & p' & Hfeed & Htable & Hsame & Hcur & Hroot').
    exists m', p'. split; [exact Hfeed|]. split; [exact Htable|].
    split; [done|]. split.
    + intros _. destruct lits as [|y lits]; [by rewrite Hsame | by apply Hcur].
    + rewrite Hroot'. simpl. by rewrite <- app_assoc.
Qed.

Lemma NewParser_returns lexemes :
  NewParser ParseFloat lexemes = Go.Returns (fresh ParseFloat lexemes).
Proof. reflexivity. Qed.

Lemma parse_lexemes_run lexemes :
  parse_lexemes ParseFloat lexemes = Parse (fresh ParseFloat lexemes).
Proof. reflexivity. Qed.

(** C10: the lexemes of [print("Hello, world!");] parse to a root with one
    statement, whose only child is the call of [print], whose only child is
    the string literal. *)
Theorem parse_print_hello_world (s1 s2 s3 s4 s5 : Z) (open close term : string) :
  parse_lexemes ParseFloat
    [MakeLexeme "print" LIdentifier s1; MakeLexeme open LParenOpen s2;
     MakeLexeme "Hello, world!" LQuoted s3; MakeLexeme close LParenClose s4;
     MakeLexeme term LSemiColon s5]
  = Go.Returns
      (RootNode [Statement [FunctionCall "print" [StringLiteral "Hello, world!"]]],
       None).
Proof. reflexivity. Qed.

(** C9: n >= 1 well-formed literal lexemes, each followed by a semicolon,
    with whitespace anywhere in between, parse without error to a root of
    exactly n statements; the i-th statement holds exactly the literal node of
    the i-th literal lexeme. *)
Theorem parse_literal_statements (lexemes lits : list Lexeme) :
  lits <> [] ->
  terminated (significant lexemes) lits ->
  Forall (fun x => is_Some (literal_node ParseFloat x)) lits ->
  exists stmts,
    parse_lexemes ParseFloat lexemes = Go.Returns (RootNode stmts, None) /\
    length stmts = length lits /\
    forall i x, lits !! i = Some x ->
      exists n, literal_node ParseFloat x = Some n /\
                stmts !! i = Some (Statement [n]).
Proof.
  intros Hne Hterm Hwf.
  assert (Hnodes : exists nodes,
             Forall2 (fun x n => literal_node ParseFloat x = Some n) lits nodes).
  { clear Hne Hterm. induction Hwf as [|x lits [n Hn] _ [nodes IH]].
    - exists []. constructor.
    - exists (n :: nodes). by constructor. }
  destruct Hnodes as [nodes Hnodes].
  destruct (feed_statements _ _ Hterm nodes
              {| dfa.current := start; dfa.table := builder ParseFloat |}
              (begin zero) [] Hnodes (conj eq_refl (or_introl eq_refl))
              eq_refl eq_refl)
    as (m' & p' & Hfeed & Htable & _ & Hcur & Hroot).
  exists (statement_of <$> nodes). split; [|split].
  - rewrite parse_lexemes_run. unfold Parse, run, fresh.
    cbn [lexer dfa self]. rewrite feed_significant, Hfeed. simpl.
    unfold dfa.Finish. rewrite Htable, (Hcur Hne), Hroot. reflexivity.
  - rewrite length_fmap. symmetry. by eapply Forall2_length.
  - intros i x Hx.
    destruct (Forall2_lookup_l _ _ _ _ _ Hnodes Hx) as (n & Hn & Hlit).
    exists n. split; [exact Hlit|].
    by rewrite list_lookup_fmap, Hn.
Qed.

(** C5: for a number lexeme whose text is no 64-bit float, the number hook
    fails with the invalid-number condition carrying that lexeme, which
    refines and is not the generic unexpected-token condition; and [Parse]
    fails with it on every lexeme sequence in which this lexeme is reached
    where the automaton takes a number. *)
Theorem invalid_number_reported (x : Lexeme) :
  Type' x = LNumber ->
  ParseFloat (Value x) = None ->
  (forall p, current p = x ->
     createNumberLiteral ParseFloat p = Go.Returns (Some (invalid_number x), p)) /\
  (forall before after m p,
     feed before (dfa (fresh ParseFloat [])) (begin zero) = Go.Returns (None, m, p) ->
     dfa.has_path (dfa.table m) (dfa.current m) LNumber = true ->
     parse_lexemes ParseFloat (before ++ x :: after)
       = Go.Returns (root p, Some (invalid_number x))) /\
  parse_lexemes ParseFloat [x] = Go.Returns (RootNode [], Some (invalid_number x)) /\
  isInvalidNumber (invalid_number x) = true /\
  isUnexpectedToken (invalid_number x) = false.
Proof.
  intros Hkind Htext.
  assert (Hhook : forall p, current p = x ->
            createNumberLiteral ParseFloat p = Go.Returns (Some (invalid_number x), p)).
  { intros p Hp. unfold createNumberLiteral. by rewrite Hp, Htext. }
  assert (Hparse : forall before after m p,
            feed before (dfa (fresh ParseFloat [])) (begin zero)
              = Go.Returns (None, m, p) ->
            dfa.has_path (dfa.table m) (dfa.current m) LNumber = true ->
            parse_lexemes ParseFloat (before ++ x :: after)
              = Go.Returns (root p, Some (invalid_number x))).
  { intros before after m p Hfeed Hpath.
    pose proof (feed_in_order before (dfa (fresh ParseFloat [])) (begin zero)
                  eq_refl (in_order_begin zero)) as Hinv.
    rewrite Hfeed in Hinv. destruct Hinv as [Htable _].
    unfold fresh in Hfeed. cbn [dfa] in Hfeed.
    rewrite parse_lexemes_run. unfold Parse, run, fresh. cbn [lexer dfa self].
    rewrite feed_app, Hfeed. simpl.
    rewrite bool_decide_false by (rewrite Hkind; discriminate).
    unfold dfa.Transition.
    rewrite Hkind, Hpath, Htable, hook_number, (Hhook (set_current x p) eq_refl).
    reflexivity. }
  split; [exact Hhook|]. split; [exact Hparse|]. split; [|done].
  exact (Hparse [] [] _ _ eq_refl eq_refl).
Qed.

(** C6: when the lexer is exhausted while the automaton is in a state that
    is not accepting, [Parse] fails with [UnterminatedStatement], which is not
    the unexpected-token condition. *)
Theorem unterminated_statement_reported (P : Parser) m p :
  feed (lexer P) (dfa P) (begin (self P)) = Go.Returns (None, m, p) ->
  dfa.current m ∉ dfa.accepting (dfa.table m) ->
  Parse P = Go.Returns (root p, Some UnterminatedStatement) /\
  isUnterminatedStatement UnterminatedStatement = true /\
  isUnexpectedToken UnterminatedStatement = false.
Proof.
  intros Hfeed Hstate. split; [|done].
  unfold Parse, run. rewrite Hfeed. simpl.
  unfold dfa.Finish. by rewrite bool_decide_false.
Qed.

(** C2: the automaton has no path from the semicolon state to the identifier
    state, although it has one to every literal state; a second statement that
    starts with an identifier is refused. *)
Theorem no_path_from_semicolon_to_identifier :
  dfa.has_path (builder ParseFloat) LSemiColon LIdentifier = false /\
  dfa.has_path (builder ParseFloat) start LIdentifier = true /\
  Forall (fun kind => dfa.has_path (builder ParseFloat) LSemiColon kind = true)
    literals /\
  parse_lexemes ParseFloat
    [MakeLexeme "true" LBoolTrue 1; MakeLexeme ";" LSemiColon 5;
     MakeLexeme "print" LIdentifier 7; MakeLexeme "(" LParenOpen 12;
     MakeLexeme "x" LQuoted 13; MakeLexeme ")" LParenClose 16;
     MakeLexeme ";" LSemiColon 17]
  = Go.Returns (RootNode [Statement [BooleanLiteral true]],
                Some (MachineError LSemiColon LIdentifier)).
Proof. repeat split; repeat constructor. Qed.

(** C8: on the lexemes [quoted, parenClose, semicolon] the two close hooks
    pop the statement and then the root: [Parse] returns without error and
    leaves the node stack empty, and one more literal makes [push] panic. *)
Theorem node_stack_emptied :
  let lexemes := [MakeLexeme "x" LQuoted 1; MakeLexeme ")" LParenClose 4;
                  MakeLexeme ";" LSemiColon 5] in
  (exists P',
     run (fresh ParseFloat lexemes)
       = Go.Returns (RootNode [Statement [StringLiteral "x"]], None, P') /\
     nodeStack (self P') = []) /\
  parse_lexemes ParseFloat (lexemes ++ [MakeLexeme "true" LBoolTrue 7])
    = Go.Panics Go.index_out_of_range.
Proof. split; [eexists; split; reflexivity | reflexivity]. Qed.

End Props.

Lemma parse_literal_statements_witness :
  exists stmts,
    parse_lexemes sample_ParseFloat
      [MakeLexeme "1.34" LNumber 1; MakeLexeme ";" LSemiColon 2;
       MakeLexeme " " LWhitespace 3; MakeLexeme "3.42" LNumber 4;
       MakeLexeme ";" LSemiColon 5] = Go.Returns (RootNode stmts, None) /\
    length stmts = 2%nat /\
    forall i x,
      [MakeLexeme "1.34" LNumber 1; MakeLexeme "3.42" LNumber 4] !! i = Some x ->
      exists n, literal_node sample_ParseFloat x = Some n /\
                stmts !! i = Some (Statement [n]).
Proof.
  apply (parse_literal_statements sample_ParseFloat
           [MakeLexeme "1.34" LNumber 1; MakeLexeme ";" LSemiColon 2;
            MakeLexeme " " LWhitespace 3; MakeLexeme "3.42" LNumber 4;
            MakeLexeme ";" LSemiColon 5]
           [MakeLexeme "1.34" LNumber 1; MakeLexeme "3.42" LNumber 4]).
  - discriminate.
  - vm_compute. repeat constructor.
  - repeat constructor; vm_compute; eauto.
Defined.

Lemma invalid_number_reported_witness :
  parse_lexemes sample_ParseFloat [MakeLexeme "1.3.2.2.422" LNumber 1]
    = Go.Returns (RootNode [],
                  Some (invalid_number (MakeLexeme "1.3.2.2.422" LNumber 1))).
Proof.
  apply (invalid_number_reported sample_ParseFloat
           (MakeLexeme "1.3.2.2.422" LNumber 1)); reflexivity.
Defined.

Lemma unterminated_statement_reported_witness :
  Parse (fresh sample_ParseFloat [MakeLexeme "true" LBoolTrue 1])
    = Go.Returns (RootNode [Statement [BooleanLiteral true]],
                  Some UnterminatedStatement) /\
  isUnterminatedStatement UnterminatedStatement = true /\
  isUnexpectedToken UnterminatedStatement = false.
Proof.
  apply (unterminated_statement_reported
           (fresh sample_ParseFloat [MakeLexeme "true" LBoolTrue 1])
           {| dfa.current := LBoolTrue; dfa.table := builder sample_ParseFloat |}
           {| current := MakeLexeme "true" LBoolTrue 1; nodeStack := [[]; [0%nat]];
              statementStack := [];
              root := RootNode [Statement [BooleanLiteral true]] |}).
  - reflexivity.
  - vm_compute. intros H. repeat (inversion H as [|? ? ? H']; clear H; rename H' into H).
Defined.

End ParseProps.

(** * Lemmas and theorems on the evaluator *)
Module RuntimeProps.

Import parse runtime RuntimeSpec.

Section Props.

Variable native : string -> Context -> list Value -> Result.

(** C1: with a true condition, the errors of the body children of an [If]
    do not reach the caller: the child [x] fails with unknown-identifier on
    its own, and inside the body of the [If] the evaluation reports no
    error; in a statement the same child's error is handed on. *)
Theorem if_body_error_discarded :
  let context := NewEvaluator "" "" "" in
  let child := Identifier "x" in
  evaluate native child context
    = Go.Returns (Some (UnknownIdentifier "x" (Some child)), nilValue, context) /\
  Evaluate native (Statement [child]) context
    = Go.Returns (Some (UnknownIdentifier "x" (Some child)), context) /\
  Evaluate native (If (BooleanLiteral true) [child]) context
    = Go.Returns (None, context).
Proof. repeat split; vm_compute; reflexivity. Qed.

(** C3: with fewer than two arguments the native arithmetic operations index
    past the end of the argument list and panic. *)
Theorem arithmetic_short_arguments_panic (context : Context) (one : float) :
  AddNumbers_Invoke context [] = Go.Panics Go.index_out_of_range /\
  AddNumbers_Invoke context [Number one] = Go.Panics Go.index_out_of_range /\
  SubtractNumbers_Invoke context [] = Go.Panics Go.index_out_of_range /\
  SubtractNumbers_Invoke context [Number one] = Go.Panics Go.index_out_of_range.
Proof. repeat split. Qed.

(** With two or more arguments they return: a number or the operand error. *)
Lemma arithmetic_two_arguments_return (context : Context) (args : list Value) :
  2 <= length args ->
  Go.returned (AddNumbers_Invoke context args) = true /\
  Go.returned (SubtractNumbers_Invoke context args) = true.
Proof.
  destruct args as [|a [|b args]]; simpl; try lia. intros _.
  destruct a, b; done.
Qed.

(** C4: for a function call whose callee resolves in the table,
    [evaluateFunctionCall] returns no error and the absence value, whatever
    error and value the invokable's [Invoke] returned; so a node whose
    arguments were collected evaluates to no error and no value, and
    [Evaluate] reports no error. *)
Theorem function_call_discards_invoke_result
    (identifier : string) (args : list Value) (context after : Context)
    (invokable : Invokable) (err : option error) (val : Value) :
  Table_Invokable (table context) identifier = inl invokable ->
  Invoke native invokable context args = Go.Returns (err, val, after) ->
  evaluateFunctionCall native identifier args context
    = Go.Returns (None, nilValue, after) /\
  forall children before,
    collect (evaluate native) children [] before = Go.Returns (None, args, context) ->
    evaluate native (FunctionCall identifier children) before
      = Go.Returns (None, nilValue, after) /\
    Evaluate native (FunctionCall identifier children) before
      = Go.Returns (None, after).
Proof.
  intros Hcallee Hinvoke.
  assert (Hcall : evaluateFunctionCall native identifier args context
                  = Go.Returns (None, nilValue, after)).
  { unfold evaluateFunctionCall. by rewrite Hcallee, Hinvoke. }
  split; [exact Hcall|]. intros children before Hargs.
  assert (Hnode : evaluate native (FunctionCall identifier children) before
                  = Go.Returns (None, nilValue, after)).
  { simpl. rewrite Hargs. simpl. exact Hcall. }
  split; [exact Hnode|]. unfold Evaluate. by rewrite Hnode.
Qed.

(** C7: [If] evaluates its condition first.  When the condition fails, that
    error is the result; when its value is not a Boolean, the result is the
    condition-must-be-boolean error; when it is false, the result is no error
    and the context is the one the condition left, whatever the body
    children are: none of them is evaluated. *)
Theorem if_condition_first
    (condition : Node) (children : list Node) (context after : Context)
    (err : option error) (result : Value) :
  evaluate native condition context = Go.Returns (err, result, after) ->
  evaluate native (If condition children) context =
  match err with
  | Some e => Go.Returns (Some e, nilValue, after)
  | None =>
      match result with
      | Boolean false => Go.Returns (None, nilValue, after)
      | Boolean true =>
          after' ← each (evaluate native) children after;
          Go.Returns (None, nilValue, after')
      | _ => Go.Returns (Some condition_must_be_boolean, nilValue, after)
      end
  end.
Proof.
  intros Hcondition. simpl. unfold evaluateIf. rewrite Hcondition. simpl.
  destruct err as [e|]; [done|].
  destruct result as [| |[|]| |]; try done.
  simpl. by destruct (each _ _ _).
Qed.

End Props.

Lemma function_call_discards_invoke_result_witness :
  Evaluate failing_native (FunctionCall "println" [StringLiteral "a"])
    (NewEvaluator "" "" "")
  = Go.Returns (None, NewEvaluator "" "" "").
Proof.
  destruct (function_call_discards_invoke_result failing_native
              "println" [String "a"] (NewEvaluator "" "" "") (NewEvaluator "" "" "")
              (Native "Println") (Some (New "native failure")) (String "partial")
              eq_refl eq_refl) as [_ Hnode].
  apply (Hnode [StringLiteral "a"] (NewEvaluator "" "" "")). reflexivity.
Defined.

Lemma if_condition_first_witness :
  let context := NewEvaluator "" "" "" in
  evaluate failing_native
    (If (BooleanLiteral false) [Operator "+" [FunctionCall "println" []]]) context
  = Go.Returns (None, nilValue, context).
Proof.
  apply (if_condition_first failing_native (BooleanLiteral false)
           [Operator "+" [FunctionCall "println" []]]
           (NewEvaluator "" "" "") (NewEvaluator "" "" "") None (Boolean false)).
  reflexivity.
Defined.

End RuntimeProps.

(** * Further properties of the parser *)
Module ParseExtra.

Import lex parse ParseSpec ExtraSpec ParseProps.

Lemma node_at_modify_below f x y t n :
  node_at x t = Some n -> node_at x (modify (x ++ y) f t) = Some (modify y f n).
Proof.
  revert t. induction x as [|i x IH]; intros t Hn; simpl in *.
  - congruence.
  - destruct (owned t) as [l|] eqn:Hl; [|done]. simpl in Hn.
    destruct (l !! i) as [c|] eqn:Hc; [|done]. simpl in Hn.
    rewrite (owned_with_owned _ _ _ Hl). simpl.
    rewrite list_lookup_alter_eq, Hc. simpl. by apply IH.
Qed.

Lemma push_at_root node p context statements :
  last (nodeStack p) = Some context ->
  node_at context (root p) = Some (RootNode statements) ->
  exists p',
    push node p = Go.Returns p' /\
    current p' = current p /\
    node_at context (root p') = Some (RootNode (statements ++ [Statement [node]])) /\
    nodeStack p' =
      nodeStack p ++ [context ++ [length statements]] ++
        (if ContainsChildren node
         then [(context ++ [length statements]) ++ [0%nat]] else []).
Proof.
  intros Hlast Hat. unfold push, getContext, deref.
  rewrite Hlast. simpl. rewrite Hat. simpl. rewrite last_snoc. simpl.
  set (root1 := modify context (PushStatement (Statement [])) (root p)).
  assert (Hroot1 : node_at context root1 = Some (RootNode (statements ++ [Statement []]))).
  { unfold root1. by rewrite (node_at_modify _ _ _ _ Hat). }
  rewrite (node_at_snoc _ _ _ _ _ Hroot1 eq_refl), lookup_end. simpl.
  assert (Hroot2 : node_at context
                     (modify (context ++ [length statements]) (Push node) root1)
                   = Some (RootNode (statements ++ [Statement [node]]))).
  { rewrite (node_at_modify_below _ _ _ _ _ Hroot1). simpl. by rewrite alter_end. }
  destruct (ContainsChildren node); eexists; (split; [reflexivity|]); simpl;
    repeat split; try exact Hroot2.
  by rewrite <- app_assoc.
Qed.

Lemma push_at_container node p context target children :
  last (nodeStack p) = Some context ->
  node_at context (root p) = Some target ->
  Children target = Some children ->
  exists p',
    push node p = Go.Returns p' /\
    current p' = current p /\
    node_at context (root p') = Some (Push node target) /\
    Children (Push node target) = Some (children ++ [node]) /\
    nodeStack p' =
      nodeStack p ++
        (if ContainsChildren node then [context ++ [length children]] else []).
Proof.
  intros Hlast Hat Hc. unfold push, getContext, deref.
  rewrite Hlast. simpl. rewrite Hat. simpl.
  assert (Hsame : (match target with
                   | RootNode s =>
                       Go.Returns
                         (set_nodeStack (nodeStack p ++ [context ++ [length s]])
                            (set_root (modify context (PushStatement (Statement []))
                                         (root p)) p))
                   | _ => Go.Returns p
                   end) = Go.Returns p) by (destruct target; try discriminate; done).
  rewrite Hsame. simpl. rewrite Hlast. simpl. rewrite Hat. simpl. rewrite Hc.
  assert (Hpush : Children (Push node target) = Some (children ++ [node])).
  { destruct target; simpl in *; congruence. }
  destruct (ContainsChildren node); eexists; (split; [reflexivity|]); simpl;
    repeat split; try exact Hpush; try (by apply node_at_modify).
  by rewrite app_nil_r.
Qed.

(** X6: [push] with the root as context synthesizes one statement under the
    root, makes the node its only child, and pushes one frame for the
    statement and one more for the node if it is a container. *)
Theorem push_under_root node p context statements :
  last (nodeStack p) = Some context ->
  node_at context (root p) = Some (RootNode statements) ->
  exists p',
    push node p = Go.Returns p' /\
    current p' = current p /\
    node_at context (root p') = Some (RootNode (statements ++ [Statement [node]])) /\
    nodeStack p' =
      nodeStack p ++ [context ++ [length statements]] ++
        (if ContainsChildren node
         then [(context ++ [length statements]) ++ [0%nat]] else []).
Proof. apply push_at_root. Qed.

(** X7: [push] with a container as context appends the node to the
    container's children and pushes a frame only if the node is a container
    itself. *)
Theorem push_under_container node p context target children :
  last (nodeStack p) = Some context ->
  node_at context (root p) = Some target ->
  Children target = Some children ->
  exists p',
    push node p = Go.Returns p' /\
    current p' = current p /\
    node_at context (root p') = Some (Push node target) /\
    Children (Push node target) = Some (children ++ [node]) /\
    nodeStack p' =
      nodeStack p ++
        (if ContainsChildren node then [context ++ [length children]] else []).
Proof. apply push_at_container. Qed.

(** X8: [push] and [closeNode] panic on an empty node stack, and only then. *)
Theorem stack_hooks_panic_iff_empty node p :
  in_order p ->
  (nodeStack p = [] ->
     push node p = Go.Panics Go.index_out_of_range /\
     closeNode p = Go.Panics Go.slice_out_of_range) /\
  (nodeStack p <> [] ->
     Go.returned (push node p) = true /\ Go.returned (closeNode p) = true).
Proof.
  intros Hin. split.
  - intros Hempty. unfold push, getContext, closeNode. by rewrite Hempty.
  - intros Hne. split; [|unfold closeNode; by destruct (nodeStack p)].
    destruct (last (nodeStack p)) as [context|] eqn:Hlast;
      [|by apply last_None in Hlast].
    assert (Hv : valid (root p) context).
    { eapply Forall_forall; [exact Hin|]. by apply last_Some_elem_of. }
    destruct Hv as [target [Hat [l Hl]]].
    destruct (isRoot target) eqn:Hroot.
    + destruct target; try discriminate.
      destruct (push_at_root node p context _ Hlast Hat) as (p' & -> & _). done.
    + assert (Hc : Children target = Some l) by (destruct target; simpl in *; congruence).
      destruct (push_at_container node p context _ _ Hlast Hat Hc) as (p' & -> & _).
      done.
Qed.

Lemma isRoot_with_owned t l : isRoot (with_owned t l) = isRoot t.
Proof. by destruct t. Qed.

Lemma isRoot_modify f y t : grows f -> isRoot (modify y f t) = isRoot t.
Proof.
  intros Hf. destruct y as [|i y]; simpl.
  - specialize (Hf t). destruct (owned t) as [l|].
    + destruct Hf as [extra ->]. apply isRoot_with_owned.
    + by rewrite Hf.
  - destruct (owned t); [apply isRoot_with_owned | done].
Qed.

Lemma push_keeps_root node p p' :
  push node p = Go.Returns p' -> isRoot (root p') = isRoot (root p).
Proof.
  unfold push, getContext, deref.
  destruct (last (nodeStack p)) as [context|]; [|discriminate]. simpl.
  destruct (node_at context (root p)) as [target|]; [|discriminate]. simpl.
  set (p1 := match target with
             | RootNode s =>
                 Go.Returns
                   (set_nodeStack (nodeStack p ++ [context ++ [length s]])
                      (set_root (modify context (PushStatement (Statement []))
                                   (root p)) p))
             | _ => Go.Returns p
             end).
  assert (Hp1 : exists q, p1 = Go.Returns q /\ isRoot (root q) = isRoot (root p)).
  { unfold p1. destruct target; eexists; (split; [reflexivity|]); try done.
    simpl. apply isRoot_modify, grows_PushStatement. }
  destruct Hp1 as (q & -> & Hq). simpl.
  destruct (last (nodeStack q)) as [context'|]; [|discriminate]. simpl.
  destruct (node_at context' (root q)) as [target'|]; [|discriminate]. simpl.
  destruct (Children target'), (ContainsChildren node); try discriminate;
    intros [= <-]; simpl; try done;
    by rewrite isRoot_modify by apply grows_Push.
Qed.

Section Props.

Variable ParseFloat : string -> option float.

Lemma Transition_table input (m : dfa.Machine parser error) p err m' p' :
  dfa.Transition input m p = Go.Returns (err, m', p') -> dfa.table m' = dfa.table m.
Proof.
  unfold dfa.Transition.
  destruct (dfa.has_path _ _ _); [|by intros [= _ <- _]].
  destruct (dfa.hook_of _ _) as [h|]; [|by intros [= _ <- _]].
  destruct (h p) as [[[e|] q]| |]; simpl; try discriminate; by intros [= _ <- _].
Qed.

(** The only hook that returns an error is the number hook, on a text that is
    no float; it then leaves the parser as it was. *)
Lemma hook_error input h p e p' :
  dfa.hook_of (builder ParseFloat) input = Some h ->
  h p = Go.Returns (Some e, p') ->
  input = LNumber /\ ParseFloat (Value (current p)) = None /\
  e = invalid_number (current p) /\ p' = p.
Proof.
  unfold dfa.hook_of.
  cbn [builder dfa.hooks dfa.Accept dfa.WhenEntering dfa.Paths dfa.Path
       dfa.NewMachineBuilder].
  intros H.
  repeat (simpl in H; case_decide; [injection H as <-|]); try discriminate H.
  all: unfold createBooleanLiteral, createStringLiteral, createIdentifier,
         closeNode, createNumberLiteral.
  all: try (destruct (push _ p); simpl; discriminate).
  - destruct (ParseFloat (Value (current p))) eqn:Hf.
    + destruct (push _ p); simpl; discriminate.
    + intros [= <- <-]. subst input. done.
  - destruct (nodeStack p); discriminate.
  - destruct (nodeStack p); discriminate.
Qed.

Lemma feed_error (lexemes : list Lexeme) m p e m' p' :
  dfa.table m = builder ParseFloat ->
  feed lexemes m p = Go.Returns (Some e, m', p') ->
  transition_failure ParseFloat lexemes e.
Proof.
  revert m p. induction lexemes as [|x lexemes IH]; intros m p Hm; simpl; [done|].
  assert (Hweaken : transition_failure ParseFloat lexemes e -> transition_failure ParseFloat (x :: lexemes) e).
  { intros [(y & st & Hy & H)|(y & Hy & H)]; [left; exists y, st|right; exists y];
      (split; [by apply list_elem_of_further|done]). }
  case_bool_decide as Hw; [intros H; apply Hweaken; by eapply IH|].
  destruct (dfa.Transition _ _ _) as [[[[err|] m1] p1]| |] eqn:Ht; simpl;
    try discriminate.
  - intros [= <- _ _]. unfold dfa.Transition in Ht. rewrite Hm in Ht.
    destruct (dfa.has_path _ _ _) eqn:Hpath.
    + destruct (dfa.hook_of _ _) as [h|] eqn:Hh; [|discriminate].
      destruct (h _) as [[[e'|] q]| |] eqn:Hrun; simpl in Ht; try discriminate.
      injection Ht as <- _ _.
      destruct (hook_error _ _ _ _ _ Hh Hrun) as (Hk & Hf & -> & _).
      right. exists x. split; [apply list_elem_of_here|].
      by repeat split.
    + injection Ht as <- _ _. left. exists x, (dfa.current m).
      split; [apply list_elem_of_here|]. by repeat split.
  - intros H. apply Hweaken. eapply IH; [|exact H].
    by rewrite (Transition_table _ _ _ _ _ _ Ht).
Qed.

Lemma parse_significant (lexemes : list Lexeme) :
  parse_lexemes ParseFloat lexemes = parse_lexemes ParseFloat (significant lexemes).
Proof.
  rewrite !parse_lexemes_run. unfold Parse, run, fresh. cbn [lexer dfa self].
  rewrite (feed_significant lexemes).
  destruct (feed _ _ _) as [[[[err|] m] p]| |]; simpl; try done.
  by destruct (dfa.Finish m).
Qed.

(** X1: whitespace lexemes do not matter to [Parse]: it returns what it
    returns on the input without them. *)
Theorem parse_ignores_whitespace (lexemes : list Lexeme) :
  parse_lexemes ParseFloat lexemes = parse_lexemes ParseFloat (significant lexemes).
Proof. apply parse_significant. Qed.

(** X2: every error of [Parse] is the unterminated-statement sentinel, the
    automaton's refusal of a lexeme of the input, or the invalid-number
    condition for a number lexeme of the input whose text is no float; a bare
    [UnexpectedTokenError] is never returned. *)
Theorem parse_error_kinds (lexemes : list Lexeme) tree e :
  parse_lexemes ParseFloat lexemes = Go.Returns (tree, Some e) ->
  (e = UnterminatedStatement \/ transition_failure ParseFloat lexemes e) /\
  (forall u, e <> UnexpectedToken u).
Proof.
  rewrite parse_lexemes_run. unfold Parse, run, fresh. cbn [lexer dfa self].
  destruct (feed _ _ _) as [[[[err|] m] p]| |] eqn:Hfeed; simpl; try discriminate.
  - intros [= _ ->]. apply feed_error in Hfeed; [|done].
    split; [by right|]. intros u ->.
    destruct Hfeed as [(? & ? & _ & _ & _ & [=])|(? & _ & _ & _ & [=])].
  - destruct (dfa.Finish m); [|discriminate]. intros [= _ <-].
    split; [by left|done].
Qed.

(** X3: a failed transition ends the parse: whatever follows the failing
    lexeme, tree and error stay the same. *)
Theorem parse_aborts_at_first_failure (lexemes more : list Lexeme) tree e :
  parse_lexemes ParseFloat lexemes = Go.Returns (tree, Some e) ->
  e <> UnterminatedStatement ->
  parse_lexemes ParseFloat (lexemes ++ more) = Go.Returns (tree, Some e).
Proof.
  rewrite !parse_lexemes_run. unfold Parse, run, fresh. cbn [lexer dfa self].
  rewrite feed_app.
  destruct (feed lexemes _ _) as [[[[err|] m] p]| |] eqn:Hfeed; simpl;
    try discriminate.
  - done.
  - destruct (dfa.Finish m); [|discriminate]. by intros [= _ <-].
Qed.

(** The state the automaton is left in by a loop without failure: the kind
    of the last lexeme that is not whitespace. *)
Lemma feed_current (lexemes : list Lexeme) m p m' p' :
  feed lexemes m p = Go.Returns (None, m', p') ->
  dfa.current m' =
  match last (significant lexemes) with
  | Some x => Type' x
  | None => dfa.current m
  end.
Proof.
  rewrite feed_significant.
  assert (Hsig : Forall (fun x => Type' x <> LWhitespace) (significant lexemes)).
  { apply Forall_forall. intros x Hx. unfold significant in Hx.
    by apply list_elem_of_filter in Hx as [? _]. }
  generalize dependent (significant lexemes). intros sig Hsig. revert m p.
  induction sig as [|x sig IH]; intros m p; simpl.
  - by intros [= <- _].
  - apply Forall_cons in Hsig as [Hx Hsig].
    rewrite bool_decide_false by done.
    destruct (dfa.Transition _ _ _) as [[[[err|] m1] p1]| |] eqn:Ht; simpl;
      try discriminate.
    intros Hfeed. rewrite (IH Hsig _ _ Hfeed).
    destruct sig as [|y sig]; simpl.
    + unfold dfa.Transition in Ht.
      destruct (dfa.has_path _ _ _); [|discriminate].
      destruct (dfa.hook_of _ _) as [h|]; [|by injection Ht as <- _].
      destruct (h _) as [[[e'|] q]| |]; simpl in Ht; try discriminate.
      by injection Ht as <- _.
    + destruct (last (y :: sig)) eqn:Hl; [done|]. by apply last_None in Hl.
Qed.

(** X4: [Parse] succeeds only on input whose last lexeme, whitespace apart,
    is a semicolon. *)
Theorem parse_success_ends_with_semicolon (lexemes : list Lexeme) tree :
  parse_lexemes ParseFloat lexemes = Go.Returns (tree, None) ->
  exists x, last (significant lexemes) = Some x /\ Type' x = LSemiColon.
Proof.
  rewrite parse_lexemes_run. unfold Parse, run, fresh. cbn [lexer dfa self].
  destruct (feed _ _ _) as [[[[err|] m] p]| |] eqn:Hfeed; simpl; try discriminate.
  pose proof (feed_in_order ParseFloat lexemes
                {| dfa.current := start; dfa.table := builder ParseFloat |}
                (begin zero) eq_refl (in_order_begin zero)) as Hinv.
  rewrite Hfeed in Hinv. destruct Hinv as [Htable _].
  apply feed_current in Hfeed. unfold dfa.Finish. rewrite Htable, Hfeed.
  destruct (last (significant lexemes)) as [x|]; simpl.
  - case_bool_decide as Hacc; [|discriminate]. intros _. exists x. split; [done|].
    cbn in Hacc. apply list_elem_of_singleton in Hacc. done.
  - discriminate.
Qed.

(** X5: without a lexeme other than whitespace, [Parse] reports an
    unterminated statement and an empty root. *)
Theorem parse_nothing_is_unterminated (lexemes : list Lexeme) :
  Forall (fun x => Type' x = LWhitespace) lexemes ->
  parse_lexemes ParseFloat lexemes
    = Go.Returns (RootNode [], Some UnterminatedStatement).
Proof.
  intros Hws. rewrite parse_significant.
  replace (significant lexemes) with (@nil Lexeme); [done|].
  symmetry. induction Hws as [|x l Hx _ IH]; [done|].
  unfold significant in *. rewrite filter_cons, decide_False by (by intros H; apply H).
  exact IH.
Qed.

(** The statement [name ( "text" ) ;] read at the start. *)
Lemma feed_call_statement ident open arg close semi rest :
  Type' ident = LIdentifier -> Type' open = LParenOpen -> Type' arg = LQuoted ->
  Type' close = LParenClose -> Type' semi = LSemiColon ->
  feed (ident :: open :: arg :: close :: semi :: rest)
    {| dfa.current := start; dfa.table := builder ParseFloat |} (begin zero) =
  feed rest {| dfa.current := LSemiColon; dfa.table := builder ParseFloat |}
    {| current := semi; nodeStack := [[]]; statementStack := [];
       root := RootNode
                 [Statement [FunctionCall (Value ident) [StringLiteral (Value arg)]]] |}.
Proof.
  destruct ident as [v1 t1 s1], open as [v2 t2 s2], arg as [v3 t3 s3],
    close as [v4 t4 s4], semi as [v5 t5 s5]. simpl.
  intros -> -> -> -> ->. reflexivity.
Qed.

(** X9: a call [name("text");] as the first statement, followed by any number
    of literal statements, parses to the call's statement followed by one
    statement per literal. *)
Theorem parse_call_then_literals
    (lexemes lits more : list Lexeme) (ident open arg close semi : Lexeme) :
  significant lexemes = ident :: open :: arg :: close :: semi :: more ->
  Type' ident = LIdentifier -> Type' open = LParenOpen -> Type' arg = LQuoted ->
  Type' close = LParenClose -> Type' semi = LSemiColon ->
  terminated more lits ->
  Forall (fun x => is_Some (literal_node ParseFloat x)) lits ->
  exists stmts,
    parse_lexemes ParseFloat lexemes
      = Go.Returns
          (RootNode
             (Statement [FunctionCall (Value ident) [StringLiteral (Value arg)]]
              :: stmts), None) /\
    length stmts = length lits /\
    forall i x, lits !! i = Some x ->
      exists n, literal_node ParseFloat x = Some n /\
                stmts !! i = Some (Statement [n]).
Proof.
  intros Hsig H1 H2 H3 H4 H5 Hterm Hwf.
  assert (Hnodes : exists nodes,
             Forall2 (fun x n => literal_node ParseFloat x = Some n) lits nodes).
  { clear Hterm. induction Hwf as [|x lits' [n Hn] _ [nodes IH]].
    - exists []. constructor.
    - exists (n :: nodes). by constructor. }
  destruct Hnodes as [nodes Hnodes].
  destruct (feed_statements ParseFloat _ _ Hterm nodes
              {| dfa.current := LSemiColon; dfa.table := builder ParseFloat |}
              {| current := semi; nodeStack := [[]]; statementStack := [];
                 root := RootNode
                   [Statement [FunctionCall (Value ident) [StringLiteral (Value arg)]]] |}
              [Statement [FunctionCall (Value ident) [StringLiteral (Value arg)]]]
              Hnodes (conj eq_refl (or_intror eq_refl)) eq_refl eq_refl)
    as (m' & p' & Hfeed & Htable & Hsame & Hcur & Hroot).
  exists (statement_of <$> nodes). split; [|split].
  - rewrite parse_lexemes_run. unfold Parse, run, fresh. cbn [lexer dfa self].
    rewrite feed_significant, Hsig,
      (feed_call_statement _ _ _ _ _ _ H1 H2 H3 H4 H5), Hfeed. simpl.
    assert (Hstate : dfa.current m' = LSemiColon).
    { destruct lits as [|y lits']; [by rewrite (Hsame eq_refl) | by apply Hcur]. }
    unfold dfa.Finish. rewrite Htable, Hstate, Hroot. reflexivity.
  - rewrite length_fmap. symmetry. by eapply Forall2_length.
  - intros i x Hx.
    destruct (Forall2_lookup_l _ _ _ _ _ Hnodes Hx) as (n & Hn & Hlit).
    exists n. split; [exact Hlit|]. by rewrite list_lookup_fmap, Hn.
Qed.

Lemma paths_inv s i :
  dfa.has_path (builder ParseFloat) s i = true ->
  (s, i) ∈ [(start, LNumber); (start, LQuoted); (start, LBoolTrue);
            (start, LBoolFalse); (start, LIdentifier);
            (LIdentifier, LParenOpen); (LParenOpen, LQuoted);
            (LQuoted, LParenClose); (LParenClose, LSemiColon);
            (LNumber, LSemiColon); (LQuoted, LSemiColon);
            (LBoolTrue, LSemiColon); (LBoolFalse, LSemiColon);
            (LSemiColon, LNumber); (LSemiColon, LQuoted);
            (LSemiColon, LBoolTrue); (LSemiColon, LBoolFalse)].
Proof. unfold dfa.has_path. intros H. by apply bool_decide_eq_true in H. Qed.

Lemma push_rooted node (m : dfa.Machine parser error) p input :
  rooted ParseFloat m p -> input <> LParenClose ->
  exists p',
    push node p = Go.Returns p' /\
    rooted ParseFloat {| dfa.current := input; dfa.table := dfa.table m |} p'.
Proof.
  intros (Htable & Hin & Hroot & [rest Hstack] & Hstate & Hdepth) Hinput.
  destruct (last (nodeStack p)) as [context|] eqn:Hlast;
    [|apply last_None in Hlast; congruence].
  assert (Hv : valid (root p) context).
  { eapply Forall_forall; [exact Hin|]. by apply last_Some_elem_of. }
  destruct Hv as [target [Hat [l Hl]]].
  assert (Hcases :
    exists p' frames,
      push node p = Go.Returns p' /\
      nodeStack p' = nodeStack p ++ frames /\
      2 <= length (nodeStack p')).
  { destruct (isRoot target) eqn:Htarget.
    - destruct target; try discriminate.
      destruct (push_at_root node p context _ Hlast Hat)
        as (p' & Hpush & _ & _ & Hs).
      eexists p', _. split; [exact Hpush|]. split; [exact Hs|].
      rewrite Hs, Hstack. rewrite !length_app. simpl. lia.
    - assert (Hc : Children target = Some l)
        by (destruct target; simpl in *; congruence).
      destruct (push_at_container node p context _ _ Hlast Hat Hc)
        as (p' & Hpush & _ & _ & _ & Hs).
      eexists p', _. split; [exact Hpush|]. split; [exact Hs|].
      rewrite Hs, length_app.
      destruct rest as [|y rest'].
      + rewrite Hstack in Hlast. simpl in Hlast. injection Hlast as <-.
        simpl in Hat. injection Hat as <-. congruence.
      + rewrite Hstack. simpl. lia. }
  destruct Hcases as (p' & frames & Hpush & Hs & Hlen).
  exists p'. split; [exact Hpush|].
  pose proof (push_in_order node p Hin) as Hin'. rewrite Hpush in Hin'.
  repeat split; simpl; try done.
  - by rewrite (push_keeps_root _ _ _ Hpush).
  - exists (rest ++ frames). by rewrite Hs, Hstack.
Qed.

Lemma hook_identifier :
  dfa.hook_of (builder ParseFloat) LIdentifier = Some createIdentifier.
Proof. reflexivity. Qed.

Lemma hook_parenOpen : dfa.hook_of (builder ParseFloat) LParenOpen = None.
Proof. reflexivity. Qed.

Lemma closeNode_rooted (m : dfa.Machine parser error) p :
  rooted ParseFloat m p -> 2 <= length (nodeStack p) ->
  exists p',
    closeNode p = Go.Returns (None, p') /\
    rooted ParseFloat {| dfa.current := LSemiColon; dfa.table := dfa.table m |} p'.
Proof.
  intros (Htable & Hin & Hroot & [rest Hstack] & Hstate & Hdepth) Hlen.
  pose proof (closeNode_in_order p Hin) as Hin'.
  unfold closeNode in *. rewrite Hstack in *.
  destruct rest as [|y rest]; [simpl in Hlen; lia|].
  eexists. split; [reflexivity|]. repeat split; simpl; try done.
  eexists. simpl. reflexivity.
Qed.

Lemma Transition_rooted input m p :
  rooted ParseFloat m p -> input <> LParenClose ->
  stays_rooted ParseFloat (dfa.Transition input m p).
Proof.
  intros Hrooted Hinput. unfold dfa.Transition.
  pose proof Hrooted as (Htable & Hin & Hroot & Hstack & Hstate & Hdepth).
  destruct (dfa.has_path _ _ _) eqn:Hpath; [|done].
  rewrite Htable in Hpath |- *. apply paths_inv in Hpath.
  repeat (apply elem_of_cons in Hpath as [[= Hs Hi]|Hpath]);
    try (by apply elem_of_nil in Hpath); subst input; try done.
  all: rewrite ?hook_number, ?hook_quoted, ?hook_true, ?hook_false,
         ?hook_identifier, ?hook_parenOpen, ?hook_semicolon.
  all: unfold createNumberLiteral, createStringLiteral, createBooleanLiteral,
         createIdentifier.
  all: try (destruct (ParseFloat (Value (current p))); [|done]).
  all: try (match goal with
            | |- context [push ?node ?q] =>
                destruct (push_rooted node m q _ Hrooted Hinput) as (p' & -> & Hr)
            end; simpl; by rewrite <- Htable).
  all: try (destruct (closeNode_rooted m p Hrooted) as (p' & -> & Hr);
            [apply Hdepth; rewrite Hs; discriminate
            | simpl; by rewrite <- Htable]).
  - simpl. repeat split; simpl; try done. intros _ _. apply Hdepth; by rewrite Hs.
Qed.

Lemma rooted_set_current m x p : rooted ParseFloat m p -> rooted ParseFloat m (set_current x p).
Proof. done. Qed.

Lemma feed_rooted (lexemes : list Lexeme) m p :
  Forall (fun x => Type' x <> LParenClose) lexemes ->
  rooted ParseFloat m p ->
  exists err m' p',
    feed lexemes m p = Go.Returns (err, m', p') /\
    exists rest, nodeStack p' = [] :: rest.
Proof.
  intros Hall. revert m p.
  induction Hall as [|x lexemes Hx _ IH]; intros m p Hrooted; simpl.
  - exists None, m, p. split; [done|]. apply Hrooted.
  - case_bool_decide; [by apply IH|].
    pose proof (Transition_rooted (Type' x) m (set_current x p)
                  (rooted_set_current m x p Hrooted) Hx) as Ht.
    destruct (dfa.Transition _ _ _) as [[[[e|] m1] p1]| |] eqn:Htr; simpl in *;
      try done.
    + exists (Some (as_error e)), m1, p1. split; [done|].
      unfold dfa.Transition in Htr.
      destruct (dfa.has_path _ _ _).
      * destruct Hrooted as (Htable & _ & _ & Hstack & _).
        destruct (dfa.hook_of _ _) as [h|] eqn:Hh; [|discriminate].
        rewrite Htable in Hh.
        destruct (h _) as [[[e'|] q]| |] eqn:Hrun; simpl in Htr; try discriminate.
        injection Htr as _ _ <-.
        destruct (hook_error  _ _ _ _ _ Hh Hrun) as (_ & _ & _ & ->).
        exact Hstack.
      * injection Htr as _ _ <-. apply Hrooted.
    + by apply IH.
Qed.

(** X10: on input without a closing parenthesis [Parse] does not panic, and the
    node stack it leaves behind is not empty and has the root's pointer as its
    bottom frame. *)
Theorem parse_without_parenClose_keeps_root (lexemes : list Lexeme) :
  Forall (fun x => Type' x <> LParenClose) lexemes ->
  exists tree err P',
    run (fresh ParseFloat lexemes) = Go.Returns (tree, err, P') /\
    parse_lexemes ParseFloat lexemes = Go.Returns (tree, err) /\
    exists rest, nodeStack (self P') = [] :: rest.
Proof.
  intros Hall.
  assert (Hstart : rooted ParseFloat {| dfa.current := start; dfa.table := builder ParseFloat |}
                     (begin zero)).
  { repeat split; simpl; try done.
    - apply in_order_begin.
    - by exists []. }
  destruct (feed_rooted lexemes _ _ Hall Hstart) as (err & m' & p' & Hfeed & Hstack).
  rewrite parse_lexemes_run. unfold Parse, run, fresh. cbn [lexer dfa self].
  rewrite Hfeed. simpl.
  destruct err as [e|]; [|destruct (dfa.Finish m')]; simpl;
    eexists _, _, _; (split; [reflexivity|]); (split; [reflexivity|]); exact Hstack.
Qed.

End Props.

Lemma parse_error_kinds_witness :
  (invalid_number (MakeLexeme "1.3.2.2.422" LNumber 1) = UnterminatedStatement \/
   transition_failure sample_ParseFloat [MakeLexeme "1.3.2.2.422" LNumber 1]
     (invalid_number (MakeLexeme "1.3.2.2.422" LNumber 1))) /\
  (forall u, invalid_number (MakeLexeme "1.3.2.2.422" LNumber 1) <> UnexpectedToken u).
Proof.
  apply (parse_error_kinds sample_ParseFloat
           [MakeLexeme "1.3.2.2.422" LNumber 1] (RootNode [])).
  reflexivity.
Defined.

Lemma parse_aborts_at_first_failure_witness :
  parse_lexemes sample_ParseFloat
    ([MakeLexeme "true" LBoolTrue 1; MakeLexeme "print" LIdentifier 6]
       ++ [MakeLexeme ";" LSemiColon 11])
  = Go.Returns (RootNode [Statement [BooleanLiteral true]],
                Some (MachineError LBoolTrue LIdentifier)).
Proof.
  apply (parse_aborts_at_first_failure sample_ParseFloat
           [MakeLexeme "true" LBoolTrue 1; MakeLexeme "print" LIdentifier 6]
           [MakeLexeme ";" LSemiColon 11]).
  - reflexivity.
  - discriminate.
Defined.

Lemma parse_success_ends_with_semicolon_witness :
  exists x,
    last (significant [MakeLexeme "true" LBoolTrue 1; MakeLexeme ";" LSemiColon 5;
                       MakeLexeme " " LWhitespace 6]) = Some x /\
    Type' x = LSemiColon.
Proof.
  apply (parse_success_ends_with_semicolon sample_ParseFloat
           [MakeLexeme "true" LBoolTrue 1; MakeLexeme ";" LSemiColon 5;
            MakeLexeme " " LWhitespace 6]
           (RootNode [Statement [BooleanLiteral true]])).
  reflexivity.
Defined.

Lemma parse_nothing_is_unterminated_witness :
  parse_lexemes sample_ParseFloat
    [MakeLexeme " " LWhitespace 1; MakeLexeme " " LWhitespace 2]
  = Go.Returns (RootNode [], Some UnterminatedStatement).
Proof.
  apply (parse_nothing_is_unterminated sample_ParseFloat
           [MakeLexeme " " LWhitespace 1; MakeLexeme " " LWhitespace 2]).
  repeat constructor.
Defined.

Lemma push_under_root_witness :
  exists p',
    push (FunctionCall "print" []) (begin zero) = Go.Returns p' /\
    current p' = current (begin zero) /\
    node_at [] (root p')
      = Some (RootNode ([] ++ [Statement [FunctionCall "print" []]])) /\
    nodeStack p' =
      nodeStack (begin zero) ++ [[] ++ [length (@nil Node)]] ++
        (if ContainsChildren (FunctionCall "print" [])
         then [([] ++ [length (@nil Node)]) ++ [0%nat]] else []).
Proof.
  apply (push_under_root (FunctionCall "print" []) (begin zero) [] []); reflexivity.
Defined.

Lemma push_under_container_witness :
  let p := {| current := MakeLexeme "x" LQuoted 7;
              nodeStack := [[]; [0%nat]; [0%nat; 0%nat]];
              statementStack := [];
              root := RootNode [Statement [FunctionCall "print" []]] |} in
  exists p',
    push (StringLiteral "x") p = Go.Returns p' /\
    current p' = current p /\
    node_at [0%nat; 0%nat] (root p')
      = Some (Push (StringLiteral "x") (FunctionCall "print" [])) /\
    Children (Push (StringLiteral "x") (FunctionCall "print" []))
      = Some ([] ++ [StringLiteral "x"]) /\
    nodeStack p' =
      nodeStack p ++
        (if ContainsChildren (StringLiteral "x")
         then [[0%nat; 0%nat] ++ [length (@nil Node)]] else []).
Proof.
  apply (push_under_container (StringLiteral "x")
           {| current := MakeLexeme "x" LQuoted 7;
              nodeStack := [[]; [0%nat]; [0%nat; 0%nat]];
              statementStack := [];
              root := RootNode [Statement [FunctionCall "print" []]] |}
           [0%nat; 0%nat] (FunctionCall "print" []) []); reflexivity.
Defined.

Lemma stack_hooks_panic_iff_empty_witness :
  (nodeStack (begin zero) = [] ->
     push (BooleanLiteral true) (begin zero) = Go.Panics Go.index_out_of_range /\
     closeNode (begin zero) = Go.Panics Go.slice_out_of_range) /\
  (nodeStack (begin zero) <> [] ->
     Go.returned (push (BooleanLiteral true) (begin zero)) = true /\
     Go.returned (closeNode (begin zero)) = true).
Proof.
  apply (stack_hooks_panic_iff_empty (BooleanLiteral true) (begin zero)).
  apply Forall_singleton. exists (RootNode []). split; [reflexivity|].
  exists []. reflexivity.
Defined.

Lemma parse_call_then_literals_witness :
  exists stmts,
    parse_lexemes sample_ParseFloat
      [MakeLexeme "print" LIdentifier 1; MakeLexeme "(" LParenOpen 6;
       MakeLexeme "Hello" LQuoted 7; MakeLexeme ")" LParenClose 14;
       MakeLexeme ";" LSemiColon 15; MakeLexeme " " LWhitespace 16;
       MakeLexeme "3.42" LNumber 17; MakeLexeme ";" LSemiColon 21]
      = Go.Returns
          (RootNode
             (Statement [FunctionCall "print" [StringLiteral "Hello"]] :: stmts),
           None) /\
    length stmts = 1%nat /\
    forall i x, [MakeLexeme "3.42" LNumber 17] !! i = Some x ->
      exists n, literal_node sample_ParseFloat x = Some n /\
                stmts !! i = Some (Statement [n]).
Proof.
  apply (parse_call_then_literals sample_ParseFloat
           [MakeLexeme "print" LIdentifier 1; MakeLexeme "(" LParenOpen 6;
            MakeLexeme "Hello" LQuoted 7; MakeLexeme ")" LParenClose 14;
            MakeLexeme ";" LSemiColon 15; MakeLexeme " " LWhitespace 16;
            MakeLexeme "3.42" LNumber 17; MakeLexeme ";" LSemiColon 21]
           [MakeLexeme "3.42" LNumber 17]
           [MakeLexeme "3.42" LNumber 17; MakeLexeme ";" LSemiColon 21]
           (MakeLexeme "print" LIdentifier 1) (MakeLexeme "(" LParenOpen 6)
           (MakeLexeme "Hello" LQuoted 7) (MakeLexeme ")" LParenClose 14)
           (MakeLexeme ";" LSemiColon 15)); try reflexivity.
  - repeat constructor.
  - repeat constructor. vm_compute. eauto.
Defined.

Lemma parse_without_parenClose_keeps_root_witness :
  exists tree err P',
    run (fresh sample_ParseFloat
           [MakeLexeme "true" LBoolTrue 1; MakeLexeme ";" LSemiColon 5])
      = Go.Returns (tree, err, P') /\
    parse_lexemes sample_ParseFloat
      [MakeLexeme "true" LBoolTrue 1; MakeLexeme ";" LSemiColon 5]
      = Go.Returns (tree, err) /\
    exists rest, nodeStack (self P') = [] :: rest.
Proof.
  apply (parse_without_parenClose_keeps_root sample_ParseFloat
           [MakeLexeme "true" LBoolTrue 1; MakeLexeme ";" LSemiColon 5]).
  repeat constructor; discriminate.
Defined.

End ParseExtra.

(** * Further properties of the evaluator *)
Module RuntimeExtra.

Import parse runtime RuntimeSpec ExtraSpec.

Section Props.

Variable native : string -> Context -> list Value -> Result.

Lemma collect_app (a b : list Node) acc context :
  collect (evaluate native) (a ++ b) acc context =
  '(err, args, context') ← collect (evaluate native) a acc context;
  match err with
  | Some e => Go.Returns (Some e, args, context')
  | None => collect (evaluate native) b args context'
  end.
Proof.
  revert acc context. induction a as [|x a IH]; intros acc context; simpl; [done|].
  destruct (evaluate native x context) as [[[[e|] v] c]| |]; simpl; auto.
Qed.

Lemma collect_length (children : list Node) acc context args context' :
  collect (evaluate native) children acc context = Go.Returns (None, args, context') ->
  length args = (length acc + length children)%nat.
Proof.
  revert acc context. induction children as [|x l IH]; intros acc context; simpl.
  - intros [= <- _]. lia.
  - destruct (evaluate native x context) as [[[[e|] v] c]| |]; simpl; try discriminate.
    intros H. apply IH in H. rewrite H, length_app. simpl. lia.
Qed.

Lemma evaluate_looped node children context :
  looped node = Some children ->
  evaluate native node context =
  '(err, args, context') ← collect (evaluate native) children [] context;
  match err with
  | Some e => Go.Returns (Some e, nilValue, context')
  | None => dispatch native node args context'
  end.
Proof. destruct node; simpl; intros [= <-]; reflexivity. Qed.

(** X11: a root or a container other than [If] stops at the first child
    whose evaluation fails: that error is the result, the later children are
    not evaluated, and the context is the one the failing child left. *)
Theorem container_aborts_at_first_child_error
    (node child : Node) (before after : list Node)
    (context context1 context2 : Context) (args : list Value) (e : error) (v : Value) :
  looped node = Some (before ++ child :: after) ->
  collect (evaluate native) before [] context = Go.Returns (None, args, context1) ->
  evaluate native child context1 = Go.Returns (Some e, v, context2) ->
  evaluate native node context = Go.Returns (Some e, nilValue, context2).
Proof.
  intros Hnode Hbefore Hchild.
  rewrite (evaluate_looped _ _ _ Hnode), collect_app, Hbefore. simpl.
  by rewrite Hchild.
Qed.

(** X12: a group with exactly one child passes the child's value on; with any
    other number of children it fails, naming that number. *)
Theorem group_needs_one_child
    (children : list Node) (context context' : Context) (args : list Value) :
  collect (evaluate native) children [] context = Go.Returns (None, args, context') ->
  (length children = 1%nat ->
     exists v, args = [v] /\
       evaluate native (Group children) context = Go.Returns (None, v, context')) /\
  (length children <> 1%nat ->
     evaluate native (Group children) context
       = Go.Returns (Some (New (group_message (length children))), nilValue, context')).
Proof.
  intros Hargs. pose proof (collect_length _ _ _ _ _ Hargs) as Hlen. simpl in Hlen.
  split; intros Hone; simpl; rewrite Hargs; simpl.
  - destruct args as [|v [|w args]]; simpl in Hlen; try lia. by exists v.
  - destruct args as [|v [|w args]]; simpl in Hlen; try lia; by rewrite <- Hlen.
Qed.

Lemma operand_types_absent (args : list Value) :
  nilValue ∈ args -> operand_types args = Go.Panics Go.nil_dereference.
Proof.
  induction args as [|a args IH]; intros Hin; [by apply elem_of_nil in Hin|].
  apply elem_of_cons in Hin as [<-|Hin]; [done|].
  simpl. destruct a; simpl; try done; by rewrite (IH Hin).
Qed.

Lemma operand_types_present (args : list Value) :
  nilValue ∉ args ->
  exists types, operand_types args = Go.Returns types /\ length types = length args.
Proof.
  induction args as [|a args IH]; intros Hnot; [by exists []|].
  apply not_elem_of_cons in Hnot as [Ha Hnot].
  destruct (IH Hnot) as (types & Htypes & Hlen).
  destruct a; try done; simpl; rewrite Htypes; simpl; eexists; split; try done;
    simpl; by rewrite Hlen.
Qed.

(** X13: an operator one of whose operands evaluates to the absence value
    (the result of a function call, a statement or an [If]) panics while
    asking the operands for their types, before the table is consulted. *)
Theorem operator_on_absent_operand_panics
    (operator : string) (children : list Node) (args : list Value)
    (context context' : Context) :
  collect (evaluate native) children [] context = Go.Returns (None, args, context') ->
  nilValue ∈ args ->
  evaluateOperator native (Operator operator children) operator args context'
    = Go.Panics Go.nil_dereference /\
  evaluate native (Operator operator children) context
    = Go.Panics Go.nil_dereference.
Proof.
  intros Hargs Hin.
  assert (Hop : evaluateOperator native (Operator operator children) operator args
                  context' = Go.Panics Go.nil_dereference).
  { unfold evaluateOperator. by rewrite (operand_types_absent _ Hin). }
  split; [exact Hop|]. simpl. rewrite Hargs. simpl. exact Hop.
Qed.


(** The native arithmetic looks at its first two arguments only: two
    numbers give their sum or difference, anything else the operand error,
    and the context is never changed. *)
Lemma arithmetic_on_two_arguments
    (context : Context) (a b : Value) (rest : list Value) :
  AddNumbers_Invoke context (a :: b :: rest) =
    match a, b with
    | Number one, Number two => Go.Returns (None, Number (one + two)%float, context)
    | _, _ =>
        Go.Returns
          (Some (New "Invalid operands. Number addition requires two numbers"),
           nilValue, context)
    end /\
  SubtractNumbers_Invoke context (a :: b :: rest) =
    match a, b with
    | Number one, Number two => Go.Returns (None, Number (one - two)%float, context)
    | _, _ =>
        Go.Returns
          (Some (New "Invalid operands. Subtraction requires two numbers"),
           nilValue, context)
    end.
Proof. destruct a, b; done. Qed.

(** X15: where the table resolves an operator on two numbers to
    [AddNumbers] (or [SubtractNumbers]), an operator node whose two operands
    evaluate to numbers evaluates to their sum (or difference), in the
    context the operands left. *)
Theorem operator_adds_and_subtracts
    (operator : string) (left right : Node) (one two : float)
    (context context1 context2 : Context) :
  evaluate native left context = Go.Returns (None, Number one, context1) ->
  evaluate native right context1 = Go.Returns (None, Number two, context2) ->
  (Table_Operator (table context2) operator [TypeNumber; TypeNumber] = inl AddNumbers ->
   evaluate native (Operator operator [left; right]) context
     = Go.Returns (None, Number (one + two)%float, context2)) /\
  (Table_Operator (table context2) operator [TypeNumber; TypeNumber]
     = inl SubtractNumbers ->
   evaluate native (Operator operator [left; right]) context
     = Go.Returns (None, Number (one - two)%float, context2)).
Proof.
  intros Hleft Hright.
  split; intros Hop; simpl; rewrite Hleft; simpl; rewrite Hright; simpl;
    unfold evaluateOperator; simpl; by rewrite Hop.
Qed.

End Props.

Lemma container_aborts_at_first_child_error_witness :
  evaluate failing_native (Statement [Identifier "x"; NumberLiteral 1])
    (NewEvaluator "" "" "")
  = Go.Returns (Some (UnknownIdentifier "x" (Some (Identifier "x"))), nilValue,
                NewEvaluator "" "" "").
Proof.
  apply (container_aborts_at_first_child_error failing_native
           (Statement [Identifier "x"; NumberLiteral 1]) (Identifier "x")
           [] [NumberLiteral 1]
           (NewEvaluator "" "" "") (NewEvaluator "" "" "") (NewEvaluator "" "" "")
           [] (UnknownIdentifier "x" (Some (Identifier "x"))) nilValue);
    reflexivity.
Defined.

Lemma group_needs_one_child_witness :
  (length [BooleanLiteral true] = 1%nat ->
     exists v, [Boolean true] = [v] /\
       evaluate failing_native (Group [BooleanLiteral true]) (NewEvaluator "" "" "")
         = Go.Returns (None, v, NewEvaluator "" "" "")) /\
  (length [BooleanLiteral true] <> 1%nat ->
     evaluate failing_native (Group [BooleanLiteral true]) (NewEvaluator "" "" "")
       = Go.Returns (Some (New (group_message (length [BooleanLiteral true]))),
                     nilValue, NewEvaluator "" "" "")).
Proof.
  apply (group_needs_one_child failing_native [BooleanLiteral true]
           (NewEvaluator "" "" "") (NewEvaluator "" "" "") [Boolean true]).
  reflexivity.
Defined.

Lemma operator_on_absent_operand_panics_witness :
  evaluateOperator failing_native
    (Operator "+" [BooleanLiteral true; FunctionCall "println" []]) "+"
    [Boolean true; nilValue] (NewEvaluator "" "" "")
    = Go.Panics Go.nil_dereference /\
  evaluate failing_native
    (Operator "+" [BooleanLiteral true; FunctionCall "println" []])
    (NewEvaluator "" "" "")
    = Go.Panics Go.nil_dereference.
Proof.
  apply (operator_on_absent_operand_panics failing_native "+"
           [BooleanLiteral true; FunctionCall "println" []]
           [Boolean true; nilValue] (NewEvaluator "" "" "") (NewEvaluator "" "" "")).
  - reflexivity.
  - apply list_elem_of_further, list_elem_of_here.
Defined.


Lemma operator_adds_and_subtracts_witness :
  evaluate failing_native (Operator "+" [NumberLiteral 1; NumberLiteral 2])
    (NewEvaluator "" "" "")
  = Go.Returns (None, Number (1 + 2)%float, NewEvaluator "" "" "").
Proof.
  destruct (operator_adds_and_subtracts failing_native "+"
              (NumberLiteral 1) (NumberLiteral 2) 1%float 2%float
              (NewEvaluator "" "" "") (NewEvaluator "" "" "") (NewEvaluator "" "" "")
              eq_refl eq_refl) as [Hadd _].
  apply Hadd. reflexivity.
Defined.

End RuntimeExtra.

(** * Parsing, then evaluating *)
Module PipelineExtra.

Import lex parse runtime ParseSpec ParseProps RuntimeSpec.

Section Props.

Variable ParseFloat : string -> option float.
Variable native : string -> Context -> list Value -> Result.

Lemma evaluate_literal_node x n context :
  literal_node ParseFloat x = Some n ->
  exists v, evaluate native n context = Go.Returns (None, v, context).
Proof.
  unfold literal_node. intros H.
  repeat case_decide; try discriminate H.
  - injection H as <-. by eexists.
  - destruct (ParseFloat (lex.Value x)); [|discriminate H]. injection H as <-. by eexists.
  - injection H as <-. by eexists.
  - injection H as <-. by eexists.
Qed.

Lemma collect_literal_statements lits nodes acc context :
  Forall2 (fun x n => literal_node ParseFloat x = Some n) lits nodes ->
  exists args,
    collect (evaluate native) (statement_of <$> nodes) acc context
      = Go.Returns (None, args, context).
Proof.
  intros Hnodes. revert acc.
  induction Hnodes as [|x n lits nodes Hn _ IH]; intros acc; simpl.
  - by eexists.
  - destruct (evaluate_literal_node x n context Hn) as [v Hv].
    rewrite Hv. simpl. apply IH.
Qed.

(** X16: a program of literal statements, parsed and then evaluated, runs
    without error and leaves the context as it was. *)
Theorem literal_program_runs
    (lexemes lits : list Lexeme) (context : Context) :
  lits <> [] ->
  terminated (significant lexemes) lits ->
  Forall (fun x => is_Some (literal_node ParseFloat x)) lits ->
  exists tree,
    parse_lexemes ParseFloat lexemes = Go.Returns (tree, None) /\
    Evaluate native tree context = Go.Returns (None, context).
Proof.
  intros Hne Hterm Hwf.
  assert (Hnodes : exists nodes,
             Forall2 (fun x n => literal_node ParseFloat x = Some n) lits nodes).
  { clear Hne Hterm. induction Hwf as [|x lits' [n Hn] _ [nodes IH]].
    - exists []. constructor.
    - exists (n :: nodes). by constructor. }
  destruct Hnodes as [nodes Hnodes].
  destruct (feed_statements ParseFloat _ _ Hterm nodes
              {| dfa.current := start; dfa.table := builder ParseFloat |}
              (begin zero) [] Hnodes (conj eq_refl (or_introl eq_refl))
              eq_refl eq_refl)
    as (m' & p' & Hfeed & Htable & _ & Hcur & Hroot).
  exists (RootNode (statement_of <$> nodes)). split.
  - rewrite parse_lexemes_run. unfold Parse, run, fresh.
    cbn [lexer dfa self]. rewrite feed_significant, Hfeed. simpl.
    unfold dfa.Finish. rewrite Htable, (Hcur Hne), Hroot. reflexivity.
  - unfold Evaluate. simpl.
    destruct (collect_literal_statements lits nodes [] context Hnodes) as [args ->].
    reflexivity.
Qed.

End Props.

Lemma literal_program_runs_witness :
  exists tree,
    parse_lexemes sample_ParseFloat
      [MakeLexeme "true" LBoolTrue 1; MakeLexeme ";" LSemiColon 5;
       MakeLexeme " " LWhitespace 6; MakeLexeme "3.42" LNumber 7;
       MakeLexeme ";" LSemiColon 11] = Go.Returns (tree, None) /\
    Evaluate failing_native tree (NewEvaluator "" "" "")
      = Go.Returns (None, NewEvaluator "" "" "").
Proof.
  apply (literal_program_runs sample_ParseFloat failing_native
           [MakeLexeme "true" LBoolTrue 1; MakeLexeme ";" LSemiColon 5;
            MakeLexeme " " LWhitespace 6; MakeLexeme "3.42" LNumber 7;
            MakeLexeme ";" LSemiColon 11]
           [MakeLexeme "true" LBoolTrue 1; MakeLexeme "3.42" LNumber 7]).
  - discriminate.
  - vm_compute. repeat constructor.
  - repeat constructor; vm_compute; eauto.
Defined.

End PipelineExtra.
